(** * Leopard [Sprite.js]: effect maps, sprites, clones and timed motion

    A shallow embedding of [src/Sprite.js], followed by the properties
    proved about it.

    JavaScript numbers are idealised as exact rationals ([Q]): every
    operation of the source that is used here ([+], [-], [*], [/], [%],
    [Math.floor], comparisons) has its exact mathematical meaning, so
    rounding, [NaN] and the infinities of IEEE doubles are outside the
    model.  Where [Math.cos] and [Math.sin] take part, numbers are real
    numbers ([R]).  Objects that the source shares by reference live in
    explicit stores indexed by locations.

    The first part holds the embedding, the second part the lemmas and
    theorems. *)

From Stdlib Require Import ZArith QArith Qround Reals Lia Psatz.
From stdpp Require Import base option list gmap strings.

Open Scope Z_scope.

(** * Part I: the embedding *)

(** ** JavaScript numbers *)

Module JsNum.

(** Truncation toward zero, the rounding that [%] applies to the quotient. *)
Definition Qtrunc (q : Q) : Z :=
  if Qle_bool 0 q then Qfloor q else Qceiling q.

(** [a % b]: the remainder, which takes the sign of the dividend. *)
Definition js_rem (a b : Q) : Q :=
  (a - b * inject_Z (Qtrunc (a / b)))%Q.

(** [Math.floor(q)]. *)
Definition Math_floor (q : Q) : Q := inject_Z (Qfloor q).


(** [SpriteBase.wrapClamp]:
    [const range = (max - min) + 1;
     return n - (Math.floor((n - min) / range) * range);] *)
Definition wrapClamp (n min max : Q) : Q :=
  let range := ((max - min) + 1)%Q in
  (n - Math_floor ((n - min) / range) * range)%Q.

(** [t < 1] and the like, as a boolean. *)
Definition Qltb (a b : Q) : bool := negb (Qle_bool b a).

End JsNum.

(** ** The 32-bit integer operators [&], [|], [~] and [<<] *)

Module Int32.

(** [ToInt32]: the value modulo [2^32], read as a signed 32-bit integer. *)
Definition to_int32 (z : Z) : Z := (z + 2 ^ 31) mod 2 ^ 32 - 2 ^ 31.

Definition is_int32 (z : Z) : Prop := - 2 ^ 31 <= z < 2 ^ 31.

(** [a & b]. *)
Definition js_and (a b : Z) : Z := to_int32 (Z.land (to_int32 a) (to_int32 b)).

(** [a | b]. *)
Definition js_or (a b : Z) : Z := to_int32 (Z.lor (to_int32 a) (to_int32 b)).

(** [~a]. *)
Definition js_not (a : Z) : Z := to_int32 (Z.lnot (to_int32 a)).

(** [a << n]: the shift count is taken modulo 32. *)
Definition js_shl (a n : Z) : Z := to_int32 (Z.shiftl (to_int32 a) (n mod 32)).

End Int32.

(** ** JavaScript values, outcomes and plain objects *)

(** References to objects of the store. *)
Definition loc := positive.

(** The values that occur in the modelled code; an object is given by the
    name of its class and its reference. *)
Inductive jsval :=
| VUndefined
| VNull
| VBool (b : bool)
| VNum (q : Q)
| VStr (s : string)
| VObj (cls : string) (ref : loc).

(** [val === 0]. *)
Definition strict_eq_zero (v : jsval) : bool :=
  match v with VNum q => Qeq_bool q 0 | _ => false end.

(** The exceptions an operation can end with.  [TypeError] is what
    [Object.defineProperty] raises when asked to redefine an accessor;
    [ConfigurationError] is the error the specification names, which no
    path of the source raises. *)
Inductive error := TypeError | ConfigurationError.

(** An operation returns normally or throws. *)
Inductive outcome (A : Type) :=
| Normal (a : A)
| Throws (e : error).
Arguments Normal {A} a.
Arguments Throws {A} e.

#[global] Instance outcome_ret : MRet outcome := fun A a => Normal a.
#[global] Instance outcome_bind : MBind outcome := fun A B f x =>
  match x with Normal a => f a | Throws e => Throws e end.

Module Obj.

(** A plain object: its own properties in insertion order. *)
Definition object := list (string * jsval).

(** [o[k]]: [undefined] for a missing property. *)
Fixpoint obj_get (o : object) (k : string) : jsval :=
  match o with
  | [] => VUndefined
  | (k', v) :: o' => if decide (k = k') then v else obj_get o' k
  end.

(** [o[k] = v]: an existing property keeps its place, a new one goes last. *)
Fixpoint obj_set (o : object) (k : string) (v : jsval) : object :=
  match o with
  | [] => [(k, v)]
  | (k', v') :: o' =>
      if decide (k = k') then (k, v) :: o' else (k', v') :: obj_set o' k v
  end.

(** [Object.keys(o)]. *)
Definition Object_keys (o : object) : list string := o.*1.

End Obj.

(** ** The class [_EffectMap] *)

Module EffectMap.
Import Int32 Obj.

(** An instance: the fields [_bitmask] and [_effectValues], and the
    properties that plain assignments under other names have created
    ([ownProps]).  The accessor properties that the constructor defines are
    given by the table of effect names. *)
Record t := mk {
  _bitmask : Z;
  _effectValues : object;
  ownProps : object
}.

(** Names that denote a member of every instance (own fields, methods of
    the class and of [Object.prototype]); property access under these names
    is outside the model. *)
Definition reserved_names : list string :=
  ["_bitmask"; "_effectValues"; "_clone"; "clear"; "constructor";
   "__proto__"; "hasOwnProperty"; "isPrototypeOf"; "propertyIsEnumerable";
   "toLocaleString"; "toString"; "valueOf"].

(** The index [i] under which the constructor registered [name]. *)
Fixpoint index_of (name : string) (names : list string) : option nat :=
  match names with
  | [] => None
  | n :: rest => if decide (name = n) then Some 0%nat else S <$> index_of name rest
  end.

(** The loop of the constructor over [names]:
    [this._effectValues[effectName] = 0; Object.defineProperty(this, effectName, ...)].
    [defined] holds the names that already have their accessor; defining one
    of them again throws. *)
Fixpoint construct (names defined : list string) (ev : object) : outcome object :=
  match names with
  | [] => Normal ev
  | effectName :: rest =>
      let ev' := obj_set ev effectName (VNum 0) in
      if decide (effectName ∈ defined) then Throws TypeError
      else construct rest (effectName :: defined) ev'
  end.

(** [zero_fill ev names]: [ev] after [ev[name] = 0] for each of [names]. *)
Definition zero_fill (ev : object) (names : list string) : object :=
  foldl (fun o effectName => obj_set o effectName (VNum 0)) ev names.

(** The union of the bits [1 << i], [1 << (i + 1)], ... of those of [names]
    whose value in [ev] is not [0]. *)
Fixpoint mask_from (i : nat) (names : list string) (ev : object) : Z :=
  match names with
  | [] => 0
  | n :: rest =>
      let r := mask_from (S i) rest ev in
      if strict_eq_zero (obj_get ev n) then r else js_or r (js_shl 1 (Z.of_nat i))
  end.

Section WithNames.

(** [effectNames] of [renderer/effectInfo.js], which is not among the
    sources: the table of registered effect names. *)
Variable effectNames : list string.

(** [new _EffectMap()]. *)
Definition new_EffectMap : outcome t :=
  ev ← construct effectNames [] [];
  mret (mk 0 ev []).

(** [this[name]]: the getter [() => this._effectValues[effectName]] for a
    registered name, the plain property otherwise. *)
Definition get (m : t) (name : string) : outcome jsval :=
  match index_of name effectNames with
  | Some _ => Normal (obj_get (_effectValues m) name)
  | None => Normal (obj_get (ownProps m) name)
  end.

(** [this[name] = val]: for a registered name the setter
    [this._effectValues[effectName] = val;
     if (val === 0) this._bitmask = this._bitmask & ~(1 << i);
     else this._bitmask = this._bitmask | (1 << i);]
    and a plain property otherwise. *)
Definition set (m : t) (name : string) (val : jsval) : outcome t :=
  match index_of name effectNames with
  | Some i =>
      let ev := obj_set (_effectValues m) name val in
      let bm :=
        if strict_eq_zero val
        then js_and (_bitmask m) (js_not (js_shl 1 (Z.of_nat i)))
        else js_or (_bitmask m) (js_shl 1 (Z.of_nat i)) in
      Normal (mk bm ev (ownProps m))
  | None =>
      Normal (mk (_bitmask m) (_effectValues m) (obj_set (ownProps m) name val))
  end.

(** The loop of [_clone]: [m[effectName] = this[effectName]] for each key. *)
Fixpoint clone_loop (this : t) (keys : list string) (m : t) : outcome t :=
  match keys with
  | [] => Normal m
  | effectName :: rest =>
      v ← get this effectName;
      m' ← set m effectName v;
      clone_loop this rest m'
  end.

(** [_clone()]. *)
Definition _clone (this : t) : outcome t :=
  m ← new_EffectMap;
  clone_loop this (Object_keys (_effectValues this)) m.

(** [clear()]: [this._effectValues[effectName] = 0] for each key, then
    [this._bitmask = 0]. *)
Definition clear (this : t) : outcome t :=
  Normal (mk 0 (zero_fill (_effectValues this) (Object_keys (_effectValues this)))
             (ownProps this)).

(** The bitwise union of the bits of the effects whose value is not [0]. *)
Definition mask_of (ev : object) : Z := mask_from 0 effectNames ev.

(** The state of bit [j] in that union. *)
Definition expected_bit (ev : object) (j : nat) : bool :=
  match effectNames !! j with
  | Some n => negb (strict_eq_zero (obj_get ev n))
  | None => false
  end.

(** The values are those of the registered names, and the bitmask is the
    union of the bits of the non-zero ones. *)
Definition consistent (m : t) : Prop :=
  Object_keys (_effectValues m) = effectNames /\
  _bitmask m = mask_of (_effectValues m).

(** The instances that the class produces: built by the constructor and
    changed by property assignment, [clear] and [_clone]. *)
Inductive reachable : t -> Prop :=
| reach_new m : new_EffectMap = Normal m -> reachable m
| reach_set m name val m' :
    reachable m -> name ∉ reserved_names ->
    set m name val = Normal m' -> reachable m'
| reach_clear m m' : reachable m -> clear m = Normal m' -> reachable m'
| reach_clone m m' : reachable m -> _clone m = Normal m' -> reachable m'.

End WithNames.

(** A concrete table: the seven graphic effects of Scratch. *)
Definition scratch_effects : list string :=
  ["color"; "fisheye"; "whirl"; "pixelate"; "mosaic"; "brightness"; "ghost"].

(** The instance that the constructor builds for that table. *)
Definition fresh_map : t :=
  mk 0 [("color", VNum 0); ("fisheye", VNum 0); ("whirl", VNum 0);
        ("pixelate", VNum 0); ("mosaic", VNum 0); ("brightness", VNum 0);
        ("ghost", VNum 0)] [].

End EffectMap.

(** ** The class [Sprite] *)




Module Sprite.
Import Obj.

(** [Sprite.RotationStyle]. *)
Inductive RotationStyle := ALL_AROUND | LEFT_RIGHT | DONT_ROTATE.

(** [{ text, style, timeout }]. *)
Record SpeechBubble := mkBubble {
  text : string;
  style : string;
  timeout : option Z
}.

(** A binding of [Trigger.js]: the event kind, its options and the script. *)
Record Trigger := mkTrigger {
  trigger : string;
  options : object;
  _script : loc
}.

(** The own fields of a [Sprite] instance, as the constructors of
    [SpriteBase] and [Sprite] set them.  The objects that sprites can share
    (effect map, variables, effect chain) are held by reference;
    [audioEffects] is the chain that its [AudioEffectMap] acts on.
    [_project] is the one project of the store; [watchers] takes no part in
    the modelled code. *)
Record t (num : Type) := mk {
  _costumeNumber : num;
  _layerOrder : num;
  triggers : list Trigger;
  costumes : list string;
  sounds : list string;
  effectChain : loc;
  effects : loc;
  audioEffects : loc;
  _vars : loc;
  _x : num;
  _y : num;
  _direction : num;
  rotationStyle : RotationStyle;
  size : num;
  visible : bool;
  parent : option loc;
  clones : list loc;
  _penDown : bool;
  penSize : num;
  _penColor : jsval;
  _speechBubble : SpeechBubble
}.
Arguments mk {num}.
Arguments _costumeNumber {num}.
Arguments _layerOrder {num}.
Arguments triggers {num}.
Arguments costumes {num}.
Arguments sounds {num}.
Arguments effectChain {num}.
Arguments effects {num}.
Arguments audioEffects {num}.
Arguments _vars {num}.
Arguments _x {num}.
Arguments _y {num}.
Arguments _direction {num}.
Arguments rotationStyle {num}.
Arguments size {num}.
Arguments visible {num}.
Arguments parent {num}.
Arguments clones {num}.
Arguments _penDown {num}.
Arguments penSize {num}.
Arguments _penColor {num}.
Arguments _speechBubble {num}.

Section Fields.
Context {num : Type}.

(** [this._costumeNumber = n]. *)
Definition with_costumeNumber (s : t num) (n : num) : t num :=
  mk n (_layerOrder s) (triggers s) (costumes s) (sounds s) (effectChain s)
     (effects s) (audioEffects s) (_vars s) (_x s) (_y s) (_direction s)
     (rotationStyle s) (size s) (visible s) (parent s) (clones s)
     (_penDown s) (penSize s) (_penColor s) (_speechBubble s).



(** [this.clones = cs]. *)
Definition with_clones (s : t num) (cs : list loc) : t num :=
  mk (_costumeNumber s) (_layerOrder s) (triggers s) (costumes s) (sounds s)
     (effectChain s) (effects s) (audioEffects s) (_vars s) (_x s) (_y s)
     (_direction s) (rotationStyle s) (size s) (visible s) (parent s) cs
     (_penDown s) (penSize s) (_penColor s) (_speechBubble s).




End Fields.




(** The setter of [costumeNumber]:
    [this._costumeNumber = this.wrapClamp(number, 1, this.costumes.length);
     if (this.fireBackdropChanged) this.fireBackdropChanged();]
    Only [Stage] has a method [fireBackdropChanged]; on a sprite the guarded
    call does nothing. *)
Definition set_costumeNumber (s : t Q) (number : Q) : t Q :=
  with_costumeNumber s
    (JsNum.wrapClamp number 1 (inject_Z (Z.of_nat (length (costumes s))))).

(** *** The generator [glide]

    The generator object is a state machine: created (its body has not
    started), suspended at its [yield], or finished.  A resumption reads
    the clock once; [now] is that reading, in milliseconds. *)






(** A sprite with three costumes, at the origin, with direction 90. *)
Definition sample_sprite : t Q :=
  mk 1%Q 0%Q [] ["a"; "b"; "c"] [] 1%positive 1%positive 1%positive 1%positive
     0%Q 0%Q 90%Q ALL_AROUND 100%Q true None [] false 1%Q
     (VObj "Color" 1%positive) (mkBubble String.EmptyString "say" None).

End Sprite.

(** ** [move], over the real numbers *)

Module RealMotion.
Import Sprite.
Open Scope R_scope.






End RealMotion.

(** ** The object store: sprites, clones and running scripts *)

Module World.
Import Obj Sprite.

(** Modelled from the spec: the effect-routing object ([EffectChain] of
    [Sound.js], which is not among the sources).  It carries its audio
    configuration and the sprite whose sound list it was given;
    [clone(config)] yields a new routing object with the configuration of
    the receiver and the sound list of [config]. *)
Record EffectChain := mkChain {
  chain_settings : object;
  chain_soundList : loc
}.

(** Modelled from the spec: [EffectChain.clone(config)], the routing object
    that [clone({ getNonPatchSoundList })] returns for the receiver [c]. *)
Definition EffectChain_clone (c : EffectChain) (getNonPatchSoundList : loc)
  : EffectChain :=
  mkChain (chain_settings c) getNonPatchSoundList.

(** An entry [{ trigger, target }] of [project.runningTriggers]. *)
Record RunningTrigger := mkRunning {
  rt_trigger : Trigger;
  target : loc
}.

(** The objects that the modelled code reaches: the sprites, the effect
    maps, the variable objects and the effect chains, each by reference,
    and the running triggers of the project. *)
Record world := mkWorld {
  sprites : gmap loc (Sprite.t Q);
  effectMaps : gmap loc EffectMap.t;
  varObjects : gmap loc object;
  effectChains : gmap loc EffectChain;
  runningTriggers : list RunningTrigger
}.

(** [a === b] on values. *)
Definition jsval_strict_eq (a b : jsval) : bool :=
  match a, b with
  | VUndefined, VUndefined | VNull, VNull => true
  | VBool x, VBool y => bool_decide (x = y)
  | VNum p, VNum q => Qeq_bool p q
  | VStr x, VStr y => bool_decide (x = y)
  | VObj _ r1, VObj _ r2 => bool_decide (r1 = r2)
  | _, _ => false
  end.

(** Modelled from the spec: [Trigger.matches] ([Trigger.js] is not among
    the sources).  The fired kind equals the kind of the trigger and every
    key of the fired options has the same value in the options of the
    trigger. *)
Definition Trigger_matches (tr : Trigger) (firedKind : string)
  (firedOptions : object) (candidate : loc) : bool :=
  bool_decide (trigger tr = firedKind) &&
  forallb (fun kv => jsval_strict_eq (obj_get (options tr) kv.1) kv.2) firedOptions.

(** Modelled from the spec: [Project._startTriggers] ([Project.js] is not
    among the sources) registers one task per started pair in the active
    set, without running it. *)
Definition _startTriggers (started running : list RunningTrigger)
  : list RunningTrigger :=
  running ++ started.

(** Modelled from the spec: the targets of the tasks that a tick of the
    scheduler resumes ([Project.js] is not among the sources): those of
    the active set. *)
Definition resumed_by_tick (w : world) : list loc :=
  target <$> runningTriggers w.

(** [let original = this;
     while (original.parent) original = original.parent;] *)
Fixpoint find_original (fuel : nat) (w : world) (original : loc) : option loc :=
  match fuel with
  | O => None
  | S fuel' =>
      s ← sprites w !! original;
      match parent s with
      | None => Some original
      | Some p => find_original fuel' w p
      end
  end.

Section WithNames.
Variable effectNames : list string.

(** [Sprite.createClone].  [None] stands for a run that does not produce a
    clone: a dangling reference, an exception, or an exhausted [fuel] in
    the search for the original sprite.  The copy made by [Object.assign]
    is the record [cs], in which the fields that the method assigns
    afterwards have their new values.  The reference of the new clone is
    returned along with the new store. *)
Definition createClone (fuel : nat) (w : world) (this : loc)
  : option (world * loc) :=
  s ← sprites w !! this;
  let clone := fresh (dom (sprites w)) in
  vars ← varObjects w !! _vars s;
  let vars' := fresh (dom (varObjects w)) in
  em ← effectMaps w !! effects s;
  em' ← match EffectMap._clone effectNames em with
        | Normal m => Some m
        | Throws _ => None
        end;
  let effects' := fresh (dom (effectMaps w)) in
  original ← find_original fuel w this;
  os ← sprites w !! original;
  oc ← effectChains w !! effectChain os;
  let chain' := fresh (dom (effectChains w)) in
  let cs :=
    Sprite.mk (_costumeNumber s) (_layerOrder s)
      (map (fun tr => mkTrigger (trigger tr) (options tr) (_script tr)) (triggers s))
      (costumes s) (sounds s) chain' effects' chain' vars'
      (_x s) (_y s) (_direction s) (rotationStyle s) (size s) (visible s)
      (Some this) [] (_penDown s) (penSize s) (_penColor s)
      (mkBubble String.EmptyString "say" None) in
  let started :=
    map (fun tr => mkRunning tr clone)
        (filter (fun tr => Trigger_matches tr "CLONE_START" [] clone = true)
                (triggers cs)) in
  Some (mkWorld
          (<[this := with_clones s (clones s ++ [clone])]>
             (<[clone := cs]> (sprites w)))
          (<[effects' := em']> (effectMaps w))
          (<[vars' := vars]> (varObjects w))
          (<[chain' := EffectChain_clone oc clone]> (effectChains w))
          (_startTriggers started (runningTriggers w)),
        clone).




End WithNames.


(** [Sprite.deleteThisClone]:
    [if (this.parent === null) return;
     this.parent.clones = this.parent.clones.filter(clone => clone !== this);
     this._project.runningTriggers = this._project.runningTriggers.filter(
       ({ target }) => target !== this);] *)
Definition deleteThisClone (w : world) (this : loc) : option world :=
  s ← sprites w !! this;
  match parent s with
  | None => Some w
  | Some p =>
      ps ← sprites w !! p;
      Some (mkWorld
              (<[p := with_clones ps (filter (fun clone => clone ≠ this) (clones ps))]>
                 (sprites w))
              (effectMaps w) (varObjects w) (effectChains w)
              (filter (fun rt => target rt ≠ this) (runningTriggers w)))
  end.

(** [ancestry w l n root]: following [parent] from [l] reaches, after [n]
    steps, the sprite [root], which has no parent. *)
Inductive ancestry (w : world) : loc -> nat -> loc -> Prop :=
| ancestry_root l s :
    sprites w !! l = Some s -> parent s = None -> ancestry w l 0 l
| ancestry_step l s p n root :
    sprites w !! l = Some s -> parent s = Some p ->
    ancestry w p n root -> ancestry w l (S n) root.

(** *** A concrete store: an original sprite and one clone of it *)

Definition clone_start : Trigger := mkTrigger "CLONE_START" [] 7%positive.
Definition green_flag : Trigger := mkTrigger "GREEN_FLAG" [] 8%positive.

Definition root_sprite : Sprite.t Q :=
  Sprite.mk 1%Q 0%Q [clone_start; green_flag] ["a"; "b"] []
    1%positive 1%positive 1%positive 1%positive
    0%Q 0%Q 90%Q ALL_AROUND 100%Q true None [2%positive] false 1%Q
    (VObj "Color" 1%positive) (mkBubble String.EmptyString "say" None).

Definition child_sprite : Sprite.t Q :=
  Sprite.mk 2%Q 0%Q [clone_start; green_flag] ["a"; "b"] []
    2%positive 2%positive 2%positive 2%positive
    10%Q 20%Q 45%Q ALL_AROUND 100%Q true (Some 1%positive) [] false 1%Q
    (VObj "Color" 1%positive) (mkBubble String.EmptyString "say" None).

(** The effect map of the clone, after [ghost = 50]. *)
Definition child_effects : EffectMap.t :=
  EffectMap.mk 64
    [("color", VNum 0); ("fisheye", VNum 0); ("whirl", VNum 0);
     ("pixelate", VNum 0); ("mosaic", VNum 0); ("brightness", VNum 0);
     ("ghost", VNum 50)] [].

Definition sample_world : world :=
  mkWorld
    (<[1%positive := root_sprite]> (<[2%positive := child_sprite]> ∅))
    (<[1%positive := EffectMap.fresh_map]> (<[2%positive := child_effects]> ∅))
    (<[1%positive := [("score", VNum 3)]]> (<[2%positive := [("score", VNum 4)]]> ∅))
    (<[1%positive := mkChain [("volume", VNum 100)] 1%positive]>
       (<[2%positive := mkChain [("volume", VNum 50)] 2%positive]> ∅))
    [mkRunning clone_start 2%positive; mkRunning green_flag 1%positive].

End World.

(** ** More of [SpriteBase]: random numbers, costumes, sounds, [wait] *)

Module SpriteBase.
Import JsNum Obj Sprite.

(** [Math.min(a, b)] and [Math.max(a, b)]. *)
Definition Math_min (a b : Q) : Q := if Qle_bool a b then a else b.
Definition Math_max (a b : Q) : Q := if Qle_bool a b then b else a.

(** [SpriteBase.random]; [r] is the value that [Math.random()] returns:
    [const min = Math.min(a, b); const max = Math.max(a, b);
     if (min % 1 === 0 && max % 1 === 0)
       return Math.floor(Math.random() * (max - min + 1)) + min;
     return Math.random() * (max - min) + min;] *)
Definition random (r : Q) (a b : Q) : Q :=
  let min := Math_min a b in
  let max := Math_max a b in
  if Qeq_bool (js_rem min 1) 0 && Qeq_bool (js_rem max 1) 0
  then (Math_floor (r * (max - min + 1)) + min)%Q
  else (r * (max - min) + min)%Q.

(** [array[i]] for a number [i]: the element when [i] is an integer index
    of the array, [undefined] otherwise. *)
Definition array_get {A} (l : list A) (i : Q) : option A :=
  if Qeq_bool (inject_Z (Qfloor i)) i && (0 <=? Qfloor i)
  then l !! Z.to_nat (Qfloor i)
  else None.


Section Costume.

(** [Number(costume)] for the strings that pass
    [!(isNaN(costume) || costume.trim().length === 0)], and [None] for the
    others: the conversion of the language, taken as given. *)
Variable numeric_string : string -> option Q.

(** The setter of [costume]; [r] is what [Math.random()] returns in the
    branch of the random costume. *)
Definition set_costume (r : Q) (s : t Q) (costume : jsval) : t Q :=
  match costume with
  | VNum n => set_costumeNumber s n
  | VStr name =>
      match EffectMap.index_of name (costumes s) with
      | Some index => set_costumeNumber s (inject_Z (Z.of_nat index) + 1)%Q
      | None =>
          if bool_decide (name = "next costume") || bool_decide (name = "next backdrop")
          then set_costumeNumber s (_costumeNumber s + 1)%Q
          else if bool_decide (name = "previous costume")
                  || bool_decide (name = "previous backdrop")
          then set_costumeNumber s (_costumeNumber s - 1)%Q
          else if bool_decide (name = "random costume")
                  || bool_decide (name = "random backdrop")
          then
            let lower := 1%Q in
            let upper := inject_Z (Z.of_nat (length (costumes s))) in
            let excluded := _costumeNumber s in
            let possibleOptions := (upper - lower)%Q in
            let randInt := (lower + Math_floor (r * possibleOptions))%Q in
            let randInt := if Qle_bool excluded randInt then (randInt + 1)%Q else randInt in
            set_costumeNumber s randInt
          else
            match numeric_string name with
            | Some n => set_costumeNumber s n
            | None => s
            end
      end
  | _ => s
  end.

End Costume.

(** [SpriteBase.getSound]:
    [if (typeof soundName === "number")
       return this.sounds[(soundName - 1) % this.sounds.length];
     else return this.sounds.find(s => s.name === soundName);]
    A sound is given by its name.  With no sounds the index is [NaN] and
    the result [undefined]. *)
Definition getSound (s : t Q) (soundName : jsval) : option string :=
  match soundName with
  | VNum n =>
      match sounds s with
      | [] => None
      | _ => array_get (sounds s)
               (js_rem (n - 1) (inject_Z (Z.of_nat (length (sounds s)))))
      end
  | VStr name => if bool_decide (name ∈ sounds s) then Some name else None
  | _ => None
  end.

(** *** The generator [wait] *)





(** A sprite with two costumes and three sounds. *)
Definition noisy_sprite : t Q :=
  mk 1%Q 0%Q [] ["a"; "b"] ["pop"; "meow"; "boing"]
     1%positive 1%positive 1%positive 1%positive
     0%Q 0%Q 90%Q ALL_AROUND 100%Q true None [] false 1%Q
     (VObj "Color" 1%positive) (mkBubble String.EmptyString "say" None).

End SpriteBase.

(** ** The conversions between angles *)

Module Angles.
Import RealMotion.
Open Scope R_scope.




End Angles.

(** ** The fence and the edges of the stage *)

Module Edges.
Import JsNum Sprite SpriteBase.

(** A box [{ left, right, top, bottom }]: what the renderer returns for
    [getBoundingBox] and [getTightBoundingBox], and the fence of the
    stage. *)
Record Box := mkBox {
  left : Q;
  right : Q;
  top : Q;
  bottom : Q
}.



(** [Sprite.Edge]. *)
Inductive Edge := BOTTOM | LEFT | RIGHT | TOP.

(** One step [if (dist < minDist) { minDist = dist; nearestEdge = edge; }];
    [minDist = None] is the initial [Infinity]. *)
Definition nearer (dist : Q) (edge : Edge) (st : option Edge * option Q)
  : option Edge * option Q :=
  match st.2 with
  | None => (Some edge, Some dist)
  | Some minDist => if Qltb dist minDist then (Some edge, Some dist) else st
  end.

(** [Sprite.nearestEdge()], for the tight bounding box that the renderer
    returns and the size of the stage.  [None] is the result [null]. *)
Definition nearestEdge (bounds : Box) (stageWidth stageHeight : Q) : option Edge :=
  let distLeft := Math_max 0 (stageWidth / 2 + left bounds) in
  let distTop := Math_max 0 (stageHeight / 2 - top bounds) in
  let distRight := Math_max 0 (stageWidth / 2 - right bounds) in
  let distBottom := Math_max 0 (stageHeight / 2 + bottom bounds) in
  let st := (None, None) in
  let st := nearer distLeft LEFT st in
  let st := nearer distTop TOP st in
  let st := nearer distRight RIGHT st in
  let st := nearer distBottom BOTTOM st in
  match st.2 with
  | Some minDist => if Qltb 0 minDist then None else st.1
  | None => st.1
  end.

(** The case ["edge"] of [Sprite.touching]:
    [bounds.left < -stageWidth / 2 || bounds.right > stageWidth / 2 ||
     bounds.top > stageHeight / 2 || bounds.bottom < -stageHeight / 2]. *)
Definition touching_edge (bounds : Box) (stageWidth stageHeight : Q) : bool :=
  Qltb (left bounds) (- stageWidth / 2) || Qltb (stageWidth / 2) (right bounds)
  || Qltb (stageHeight / 2) (top bounds) || Qltb (bottom bounds) (- stageHeight / 2).

End Edges.

(** ** A sprite and its clones *)

Module Family.
Import Obj Sprite World.

(** [Sprite.andClones]:
    [return [this, ...this.clones.flatMap(clone => clone.andClones())];]
    [None] stands for a dangling reference or an exhausted [fuel]. *)
Fixpoint andClones (fuel : nat) (w : world) (this : loc) : option (list loc) :=
  match fuel with
  | O => None
  | S fuel' =>
      s ← sprites w !! this;
      rest ← mapM (andClones fuel' w) (clones s);
      Some (this :: concat rest)
  end.

End Family.

(** * Part II: lemmas and theorems *)

(** ** Numbers *)

Module JsNumFacts.
Import JsNum.

(** The three scenarios quoted above [wrapClamp] in the source. *)
Example wrapClamp_7_1_5 : wrapClamp 7 1 5 == 2.
Proof. reflexivity. Qed.
Example wrapClamp_0_1_5 : wrapClamp 0 1 5 == 5.
Proof. reflexivity. Qed.
Example wrapClamp_m11_m10_6 : wrapClamp (-11) (-10) 6 == 6.
Proof. reflexivity. Qed.

(** *** Bounds of the rounding operations *)

Lemma Math_floor_bounds (q : Q) : (Math_floor q <= q /\ q < Math_floor q + 1)%Q.
Proof.
  unfold Math_floor. split; [apply Qfloor_le|].
  generalize (Qlt_floor q). rewrite inject_Z_plus. auto.
Qed.


Lemma Qtrunc_nonneg (q : Q) : (0 <= q)%Q -> (0 <= Qtrunc q)%Z.
Proof.
  intros H. unfold Qtrunc. pose proof H as Hb. apply Qle_bool_iff in Hb. rewrite Hb.
  exact (Qfloor_resp_le 0 q H).
Qed.





(** *** The wrap law of [wrapClamp] *)



#[global] Instance Math_floor_proper : Proper (Qeq ==> Qeq) Math_floor.
Proof. intros a b E. unfold Math_floor. by rewrite (Qfloor_comp a b E). Qed.

#[global] Instance wrapClamp_proper : Proper (Qeq ==> Qeq ==> Qeq ==> Qeq) wrapClamp.
Proof. intros a b E a' b' E' a'' b'' E''. unfold wrapClamp. by rewrite E, E', E''. Qed.


Lemma wrapClamp_bounds (n lo hi : Q) :
  (0 < hi - lo + 1)%Q ->
  (lo <= wrapClamp n lo hi /\ wrapClamp n lo hi < hi + 1)%Q.
Proof.
  intros Hr. unfold wrapClamp. cbv zeta.
  destruct (Math_floor_bounds ((n - lo) / (hi - lo + 1))) as [Fl Fu].
  set (k := Math_floor _) in *. set (r := (hi - lo + 1)%Q) in *.
  assert (E : (n - lo == (n - lo) / r * r)%Q) by (field; lra).
  assert (H1 : (k * r <= (n - lo) / r * r)%Q) by (apply Qmult_le_compat_r; lra).
  assert (H2 : ((n - lo) / r * r < (k + 1) * r)%Q) by (apply Qmult_lt_compat_r; lra).
  assert (Er : (r == hi - lo + 1)%Q) by reflexivity.
  assert (E3 : ((k + 1) * r == k * r + r)%Q) by ring.
  clearbody r k. split; lra.
Qed.

Lemma wrapClamp_Z (n lo hi : Z) :
  lo <= hi ->
  (wrapClamp (inject_Z n) (inject_Z lo) (inject_Z hi)
   == inject_Z (lo + (n - lo) mod (hi - lo + 1)))%Q.
Proof.
  intros Hle. unfold wrapClamp, Math_floor. cbv zeta.
  assert (E : (inject_Z hi - inject_Z lo + 1 == inject_Z (hi - lo + 1))%Q).
  { unfold Z.sub. rewrite !inject_Z_plus, inject_Z_opp. ring. }
  assert (E2 : (inject_Z n - inject_Z lo == inject_Z (n - lo))%Q).
  { unfold Z.sub. rewrite !inject_Z_plus, inject_Z_opp. ring. }
  assert (F : Qfloor ((inject_Z n - inject_Z lo) / (inject_Z hi - inject_Z lo + 1))
              = (n - lo) / (hi - lo + 1)).
  { rewrite Zdiv_Qdiv. apply Qfloor_comp. by rewrite E, E2. }
  rewrite F. rewrite (Z.mod_eq (n - lo) (hi - lo + 1)) by lia.
  unfold Z.sub. rewrite !inject_Z_plus, !inject_Z_opp, !inject_Z_mult, !inject_Z_plus, !inject_Z_opp.
  ring.
Qed.


Lemma Qltb_true (a b : Q) : Qltb a b = true <-> (a < b)%Q.
Proof.
  unfold Qltb. rewrite negb_true_iff. split.
  - intros H. apply Qnot_le_lt. intros Hle. apply Qle_bool_iff in Hle. congruence.
  - intros H. destruct (Qle_bool b a) eqn:E; [|done].
    apply Qle_bool_iff in E. exfalso. by apply (Qlt_not_le a b).
Qed.

Lemma Qltb_false (a b : Q) : Qltb a b = false <-> (b <= a)%Q.
Proof.
  unfold Qltb. rewrite negb_false_iff. apply Qle_bool_iff.
Qed.


End JsNumFacts.

(** ** 32-bit operators *)

Module Int32Facts.
Import Int32.

Lemma to_int32_range z : is_int32 (to_int32 z).
Proof. unfold is_int32, to_int32. pose proof (Z.mod_pos_bound (z + 2 ^ 31) (2 ^ 32)). lia. Qed.

Lemma to_int32_id z : is_int32 z -> to_int32 z = z.
Proof. unfold is_int32, to_int32. intros H. rewrite Z.mod_small; lia. Qed.

Lemma to_int32_mod z : to_int32 z mod 2 ^ 32 = z mod 2 ^ 32.
Proof.
  unfold to_int32. rewrite Zminus_mod_idemp_l. f_equal. lia.
Qed.

Lemma testbit_to_int32 z j : 0 <= j < 32 -> Z.testbit (to_int32 z) j = Z.testbit z j.
Proof.
  intros Hj.
  rewrite <- (Z.mod_pow2_bits_low (to_int32 z) 32 j) by lia.
  rewrite to_int32_mod. apply Z.mod_pow2_bits_low. lia.
Qed.

Lemma int32_ext a b :
  is_int32 a -> is_int32 b ->
  (forall j, 0 <= j < 32 -> Z.testbit a j = Z.testbit b j) -> a = b.
Proof.
  intros Ha Hb H.
  assert (E : a mod 2 ^ 32 = b mod 2 ^ 32).
  { apply Z.bits_inj'. intros j Hj. destruct (Z_lt_dec j 32).
    - rewrite !Z.mod_pow2_bits_low by lia. apply H. lia.
    - rewrite !Z.mod_pow2_bits_high by lia. reflexivity. }
  rewrite <- (to_int32_id a Ha), <- (to_int32_id b Hb).
  unfold to_int32.
  assert (E' : (a + 2 ^ 31) mod 2 ^ 32 = (b + 2 ^ 31) mod 2 ^ 32).
  { rewrite <- (Zplus_mod_idemp_l a), <- (Zplus_mod_idemp_l b), E. reflexivity. }
  rewrite E'. reflexivity.
Qed.

Lemma testbit_js_and a b j :
  0 <= j < 32 -> Z.testbit (js_and a b) j = Z.testbit a j && Z.testbit b j.
Proof. intros Hj. unfold js_and. rewrite testbit_to_int32, Z.land_spec, !testbit_to_int32; auto. Qed.

Lemma testbit_js_or a b j :
  0 <= j < 32 -> Z.testbit (js_or a b) j = Z.testbit a j || Z.testbit b j.
Proof. intros Hj. unfold js_or. rewrite testbit_to_int32, Z.lor_spec, !testbit_to_int32; auto. Qed.

Lemma testbit_js_not a j :
  0 <= j < 32 -> Z.testbit (js_not a) j = negb (Z.testbit a j).
Proof.
  intros Hj. unfold js_not.
  rewrite testbit_to_int32, Z.lnot_spec, testbit_to_int32; auto; lia.
Qed.

Lemma testbit_js_shl_1 i j :
  0 <= i < 32 -> 0 <= j < 32 -> Z.testbit (js_shl 1 i) j = (j =? i).
Proof.
  intros Hi Hj. unfold js_shl.
  rewrite testbit_to_int32 by lia.
  rewrite (to_int32_id 1) by (unfold is_int32; lia).
  rewrite Z.mod_small by lia.
  rewrite Z.shiftl_spec by lia.
  destruct (Z.eqb_spec j i) as [->|Hne].
  - rewrite Z.sub_diag. reflexivity.
  - destruct (Z_lt_dec j i).
    + apply Z.testbit_neg_r. lia.
    + replace (j - i) with (Z.succ (j - i - 1)) by lia.
      change 1 with (2 * 0 + 1). rewrite Z.testbit_odd_succ by lia. apply Z.testbit_0_l.
Qed.

End Int32Facts.

(** ** Plain objects *)

Module ObjFacts.
Import Obj.

Lemma obj_get_set (o : object) k v k' :
  obj_get (obj_set o k v) k' = if decide (k' = k) then v else obj_get o k'.
Proof.
  induction o as [|[k0 v0] o IH]; simpl.
  - repeat case_decide; congruence.
  - repeat (case_decide; simpl); try congruence.
Qed.

Lemma obj_keys_set_in (o : object) k v :
  k ∈ Object_keys o -> Object_keys (obj_set o k v) = Object_keys o.
Proof.
  unfold Object_keys. induction o as [|[k0 v0] o IH]; simpl; intros Hin.
  - by apply elem_of_nil in Hin.
  - case_decide; simpl; [congruence|].
    f_equal. apply IH. apply elem_of_cons in Hin as [?|?]; [congruence|done].
Qed.

Lemma obj_keys_set_notin (o : object) k v :
  k ∉ Object_keys o -> Object_keys (obj_set o k v) = Object_keys o ++ [k].
Proof.
  unfold Object_keys. induction o as [|[k0 v0] o IH]; simpl; intros Hin; [done|].
  apply not_elem_of_cons in Hin as [Hne Hin].
  case_decide; [congruence|]. simpl. f_equal. by apply IH.
Qed.

Lemma obj_get_notin (o : object) k : k ∉ Object_keys o -> obj_get o k = VUndefined.
Proof.
  unfold Object_keys. induction o as [|[k0 v0] o IH]; simpl; intros Hin; [done|].
  apply not_elem_of_cons in Hin as [Hne Hin]. case_decide; [congruence|auto].
Qed.

Lemma obj_ext (o1 o2 : object) :
  NoDup (Object_keys o1) -> Object_keys o1 = Object_keys o2 ->
  (forall k, obj_get o1 k = obj_get o2 k) -> o1 = o2.
Proof.
  unfold Object_keys. revert o2.
  induction o1 as [|[k1 v1] o1 IH]; intros [|[k2 v2] o2]; simpl; try done.
  intros Hnd Hk Hg. inversion Hnd as [|? ? Hnotin Hnd']; subst.
  injection Hk as -> Hk.
  pose proof (Hg k2) as Hg2. rewrite !decide_True in Hg2 by done. subst v2.
  f_equal. apply IH; auto.
  intros k. specialize (Hg k). case_decide; [|done].
  subst k. rewrite (obj_get_notin o1 k2), (obj_get_notin o2 k2); [done| |done].
  unfold Object_keys, fmap. by rewrite <- Hk.
Qed.

End ObjFacts.

(** ** Effect maps *)

Module EffectMapFacts.
Import Int32 Int32Facts Obj ObjFacts EffectMap.

Section WithNames.
Variable effectNames : list string.

Local Abbreviation new_EffectMap := (EffectMap.new_EffectMap effectNames).
Local Abbreviation get := (EffectMap.get effectNames).
Local Abbreviation set := (EffectMap.set effectNames).
Local Abbreviation clone_loop := (EffectMap.clone_loop effectNames).
Local Abbreviation _clone := (EffectMap._clone effectNames).
Local Abbreviation mask_of := (EffectMap.mask_of effectNames).
Local Abbreviation expected_bit := (EffectMap.expected_bit effectNames).
Local Abbreviation consistent := (EffectMap.consistent effectNames).
Local Abbreviation reachable := (EffectMap.reachable effectNames).

Lemma obj_get_zero_fill names : forall ev k,
  obj_get (zero_fill ev names) k =
  if decide (k ∈ names) then VNum 0 else obj_get ev k.
Proof.
  induction names as [|n names IH]; intros ev k.
  - rewrite decide_False; [done|]. apply not_elem_of_nil.
  - unfold zero_fill in *. cbn [foldl]. rewrite IH, obj_get_set.
    destruct (decide (k ∈ names)) as [Hin|Hin].
    + rewrite decide_True; [done|]. by apply elem_of_cons; right.
    + destruct (decide (k = n)) as [->|Hne].
      * rewrite decide_True; [done|]. by apply elem_of_cons; left.
      * rewrite decide_False; [done|]. rewrite elem_of_cons. tauto.
Qed.

Lemma keys_zero_fill_in names : forall ev,
  names ⊆ Object_keys ev ->
  Object_keys (zero_fill ev names) = Object_keys ev.
Proof.
  induction names as [|n names IH]; intros ev Hsub; [done|].
  unfold zero_fill in *. simpl.
  assert (Hn : n ∈ Object_keys ev) by (apply Hsub; by left).
  rewrite IH; rewrite obj_keys_set_in; auto.
  intros x Hx. apply Hsub. by right.
Qed.

Lemma keys_zero_fill_fresh names : forall ev,
  NoDup names -> (forall n, n ∈ names -> n ∉ Object_keys ev) ->
  Object_keys (zero_fill ev names) = Object_keys ev ++ names.
Proof.
  induction names as [|n names IH]; intros ev Hnd Hfresh.
  - simpl. by rewrite app_nil_r.
  - inversion Hnd as [|? ? Hnotin Hnd']; subst.
    unfold zero_fill in *. simpl.
    assert (Hk : Object_keys (obj_set ev n (VNum 0)) = Object_keys ev ++ [n]).
    { apply obj_keys_set_notin. apply Hfresh. by left. }
    rewrite IH, Hk; auto.
    + by rewrite <- app_assoc.
    + intros x Hx. rewrite Hk. rewrite elem_of_app, list_elem_of_singleton.
      intros [Hin| ->]; [|done]. eapply Hfresh; [|exact Hin]. by right.
Qed.

Lemma construct_ok names : forall defined ev,
  NoDup names -> (forall n, n ∈ names -> n ∉ defined) ->
  construct names defined ev = Normal (zero_fill ev names).
Proof.
  induction names as [|n names IH]; intros defined ev Hnd Hfresh; [done|].
  inversion Hnd as [|? ? Hnotin Hnd']; subst. simpl.
  rewrite decide_False by (apply Hfresh; by left).
  apply IH; auto.
  intros x Hx. rewrite elem_of_cons. intros [->|Hd]; [done|].
  eapply Hfresh; [|exact Hd]. by right.
Qed.

Lemma construct_dup names : forall defined ev,
  ~ (NoDup names /\ forall n, n ∈ names -> n ∉ defined) ->
  construct names defined ev = Throws TypeError.
Proof.
  induction names as [|n names IH]; intros defined ev Hbad; simpl.
  - exfalso. apply Hbad. split; [constructor|]. intros n Hn. by apply elem_of_nil in Hn.
  - case_decide as Hin; [done|]. apply IH. intros [Hnd Hfresh]. apply Hbad. split.
    + constructor; [|done]. intros Hn. apply (Hfresh n Hn). by left.
    + intros x Hx Hd. apply elem_of_cons in Hx as [->|Hx]; [done|].
      apply (Hfresh x Hx). by right.
Qed.

Lemma index_of_Some name names i :
  index_of name names = Some i -> names !! i = Some name.
Proof.
  revert i. induction names as [|n names IH]; intros i; simpl; [done|].
  case_decide as Heq.
  - intros [= <-]. by subst.
  - destruct (index_of name names) as [j|]; simpl; [|done].
    intros [= <-]. simpl. by apply IH.
Qed.

Lemma index_of_None name names :
  index_of name names = None <-> name ∉ names.
Proof.
  induction names as [|n names IH]; simpl.
  - split; [intros _; apply not_elem_of_nil|done].
  - case_decide as Heq.
    + subst. split; [done|]. intros H. exfalso. apply H. by left.
    + rewrite not_elem_of_cons. destruct (index_of name names); simpl.
      * split; [done|]. intros [_ H]. by apply IH in H.
      * split; [|done]. intros _. split; [done|]. by apply IH.
Qed.

Lemma index_of_lookup name names i :
  NoDup names -> names !! i = Some name -> index_of name names = Some i.
Proof.
  intros Hnd Hl.
  destruct (index_of name names) as [j|] eqn:E.
  - apply index_of_Some in E. f_equal. eapply NoDup_lookup; eauto.
  - apply index_of_None in E. exfalso. apply E. eapply list_elem_of_lookup_2; eauto.
Qed.

Lemma mask_from_int32 names : forall i ev, is_int32 (mask_from i names ev).
Proof.
  induction names as [|n names IH]; intros i ev; simpl.
  - unfold is_int32. lia.
  - destruct (strict_eq_zero _); [apply IH|apply to_int32_range].
Qed.

Lemma testbit_mask_from names : forall (i : nat) ev (j : nat),
  (i + length names <= 32)%nat -> (j < 32)%nat ->
  Z.testbit (mask_from i names ev) (Z.of_nat j) =
  if (i <=? j)%nat then
    match names !! (j - i)%nat with
    | Some n => negb (strict_eq_zero (obj_get ev n))
    | None => false
    end
  else false.
Proof.
  induction names as [|n names IH]; intros i ev j Hlen Hj.
  - simpl. rewrite Z.testbit_0_l. by destruct (i <=? j)%nat.
  - cbn [mask_from]. simpl in Hlen.
    assert (Hr := IH (S i) ev j ltac:(lia) Hj).
    assert (Hbit : Z.testbit (js_shl 1 (Z.of_nat i)) (Z.of_nat j) = bool_decide (j = i)).
    { rewrite testbit_js_shl_1 by lia.
      destruct (Z.eqb_spec (Z.of_nat j) (Z.of_nat i)); symmetry;
        [apply bool_decide_eq_true|apply bool_decide_eq_false]; lia. }
    assert (Hcase : (j < i \/ j = i \/ S i <= j)%nat) by lia.
    destruct Hcase as [Hlt|[->|Hgt]].
    + rewrite (proj2 (Nat.leb_gt i j)) by lia.
      rewrite (proj2 (Nat.leb_gt (S i) j)) in Hr by lia.
      rewrite bool_decide_eq_false_2 in Hbit by lia.
      destruct (strict_eq_zero (obj_get ev n)); [done|].
      rewrite testbit_js_or by lia. by rewrite Hr, Hbit.
    + rewrite (proj2 (Nat.leb_le i i)) by lia.
      rewrite (proj2 (Nat.leb_gt (S i) i)) in Hr by lia.
      rewrite bool_decide_eq_true_2 in Hbit by lia.
      rewrite Nat.sub_diag. simpl.
      destruct (strict_eq_zero (obj_get ev n)); [done|].
      rewrite testbit_js_or by lia. by rewrite Hr, Hbit.
    + rewrite (proj2 (Nat.leb_le i j)) by lia.
      rewrite (proj2 (Nat.leb_le (S i) j)) in Hr by lia.
      rewrite bool_decide_eq_false_2 in Hbit by lia.
      replace (j - i)%nat with (S (j - S i)) by lia. simpl.
      destruct (strict_eq_zero (obj_get ev n)); [done|].
      rewrite testbit_js_or by lia. rewrite Hr, Hbit. apply orb_false_r.
Qed.

Lemma testbit_mask_of ev (j : nat) :
  (length effectNames <= 32)%nat -> (j < 32)%nat ->
  Z.testbit (mask_of ev) (Z.of_nat j) = expected_bit ev j.
Proof.
  intros Hlen Hj. unfold EffectMap.mask_of, expected_bit.
  rewrite testbit_mask_from by lia. by rewrite Nat.sub_0_r.
Qed.

Lemma mask_of_ext ev ev' :
  (forall n, n ∈ effectNames -> strict_eq_zero (obj_get ev n) = strict_eq_zero (obj_get ev' n)) ->
  mask_of ev = mask_of ev'.
Proof.
  unfold EffectMap.mask_of. generalize 0%nat. induction effectNames as [|n names IH]; intros i H; [done|].
  simpl. rewrite (H n) by (by left). rewrite (IH (S i)); [done|].
  intros x Hx. apply H. by right.
Qed.

Lemma mask_from_zero names : forall i ev,
  (forall n, n ∈ names -> strict_eq_zero (obj_get ev n) = true) ->
  mask_from i names ev = 0.
Proof.
  induction names as [|n names IH]; intros i ev H; [done|].
  simpl. rewrite (H n) by (by left). apply IH. intros x Hx. apply H. by right.
Qed.

Lemma set_total m name val : exists m', set m name val = Normal m'.
Proof. unfold EffectMap.set. destruct (index_of name effectNames); eauto. Qed.


Lemma set_unregistered m name val m' :
  name ∉ effectNames -> set m name val = Normal m' ->
  _bitmask m' = _bitmask m /\ _effectValues m' = _effectValues m /\
  ownProps m' = obj_set (ownProps m) name val.
Proof.
  intros Hn. apply index_of_None in Hn. unfold EffectMap.set. rewrite Hn.
  by intros [= <-].
Qed.

Section WellFormed.
Hypothesis names_distinct : NoDup effectNames.
Hypothesis names_fit : (length effectNames <= 32)%nat.

Lemma set_registered m name val (i : nat) m' :
  effectNames !! i = Some name -> set m name val = Normal m' ->
  _effectValues m' = obj_set (_effectValues m) name val /\
  ownProps m' = ownProps m /\
  is_int32 (_bitmask m') /\
  forall j : nat, (j < 32)%nat ->
    Z.testbit (_bitmask m') (Z.of_nat j) =
    if decide (j = i) then negb (strict_eq_zero val)
    else Z.testbit (_bitmask m) (Z.of_nat j).
Proof.
  intros Hi. pose proof (lookup_lt_Some _ _ _ Hi) as Hlt.
  unfold EffectMap.set. rewrite (index_of_lookup _ _ _ names_distinct Hi).
  intros [= <-]. simpl. split; [done|]. split; [done|]. split.
  { destruct (strict_eq_zero val); apply to_int32_range. }
  intros j Hj. destruct (strict_eq_zero val).
  - rewrite testbit_js_and, testbit_js_not, testbit_js_shl_1 by lia.
    case_decide as Hji.
    + subst. rewrite Z.eqb_refl. apply andb_false_r.
    + rewrite (proj2 (Z.eqb_neq _ _)) by lia. apply andb_true_r.
  - rewrite testbit_js_or, testbit_js_shl_1 by lia.
    case_decide as Hji.
    + subst. rewrite Z.eqb_refl. apply orb_true_r.
    + rewrite (proj2 (Z.eqb_neq _ _)) by lia. apply orb_false_r.
Qed.

Lemma set_consistent m name val m' :
  consistent m -> set m name val = Normal m' -> consistent m'.
Proof.
  intros [Hk Hb] Hset.
  destruct (index_of name effectNames) as [i|] eqn:Ei.
  - apply index_of_Some in Ei.
    destruct (set_registered _ _ _ _ _ Ei Hset) as (Hev & _ & Hint & Hbits).
    assert (Hin : name ∈ effectNames) by (eapply list_elem_of_lookup_2; eauto).
    split.
    + rewrite Hev, obj_keys_set_in; [done|]. by rewrite Hk.
    + apply int32_ext; [done|apply mask_from_int32|].
      intros j Hj. replace j with (Z.of_nat (Z.to_nat j)) by lia.
      rewrite Hbits, testbit_mask_of by lia.
      unfold EffectMap.expected_bit. rewrite Hev. case_decide as Hji.
      * rewrite Hji, Ei, obj_get_set. by rewrite decide_True.
      * rewrite Hb, testbit_mask_of by lia. unfold EffectMap.expected_bit.
        destruct (effectNames !! Z.to_nat j) as [n|] eqn:En; [|done].
        rewrite obj_get_set, decide_False; [done|].
        intros ->. apply Hji. eapply NoDup_lookup; eauto.
  - apply index_of_None in Ei.
    destruct (set_unregistered _ _ _ _ Ei Hset) as (Hbm & Hev & _).
    split; [by rewrite Hev|by rewrite Hbm, Hev].
Qed.

Lemma new_EffectMap_ok :
  new_EffectMap = Normal (mk 0 (zero_fill [] effectNames) []).
Proof.
  unfold EffectMap.new_EffectMap. rewrite construct_ok; [done|done|].
  intros n _. apply not_elem_of_nil.
Qed.

Lemma zero_fill_consistent ev p :
  Object_keys (zero_fill ev effectNames) = effectNames ->
  consistent (mk 0 (zero_fill ev effectNames) p).
Proof.
  intros Hk. split; [done|]. simpl. unfold EffectMap.mask_of. symmetry.
  apply mask_from_zero. intros n Hn.
  rewrite obj_get_zero_fill, decide_True; done.
Qed.

Lemma new_consistent m : new_EffectMap = Normal m -> consistent m.
Proof.
  rewrite new_EffectMap_ok. intros [= <-].
  apply zero_fill_consistent.
  rewrite keys_zero_fill_fresh; [done|done|].
  intros n _. apply not_elem_of_nil.
Qed.

Lemma clear_ok this :
  Object_keys (_effectValues this) = effectNames ->
  exists m, clear this = Normal m /\ consistent m /\ _bitmask m = 0 /\
    ownProps m = ownProps this /\
    forall n, n ∈ effectNames -> obj_get (_effectValues m) n = VNum 0.
Proof.
  intros Hk. unfold clear. rewrite Hk. eexists. split; [reflexivity|].
  split; [|split; [done|split; [done|]]].
  - apply zero_fill_consistent. rewrite keys_zero_fill_in; [done|]. by rewrite Hk.
  - intros n Hn. simpl. by rewrite obj_get_zero_fill, decide_True.
Qed.

Lemma clone_loop_ok this keys : forall m,
  keys ⊆ effectNames -> consistent m ->
  exists m', clone_loop this keys m = Normal m' /\ consistent m' /\
    ownProps m' = ownProps m /\
    forall k, obj_get (_effectValues m') k =
      if decide (k ∈ keys) then obj_get (_effectValues this) k
      else obj_get (_effectValues m) k.
Proof.
  induction keys as [|key keys IH]; intros m Hsub Hc.
  - exists m. split; [done|]. split; [done|]. split; [done|].
    intros k. rewrite decide_False; [done|]. apply not_elem_of_nil.
  - assert (Hin : key ∈ effectNames) by (apply Hsub; by left).
    apply list_elem_of_lookup_1 in Hin as [i Hi].
    pose proof (index_of_lookup _ _ _ names_distinct Hi) as Hidx.
    cbn [clone_loop]. unfold EffectMap.get at 1. rewrite Hidx. cbn [mbind outcome_bind].
    destruct (set_total m key (obj_get (_effectValues this) key)) as [m1 Hset].
    rewrite Hset. cbn [mbind outcome_bind].
    pose proof (set_consistent _ _ _ _ Hc Hset) as Hc1.
    destruct (set_registered _ _ _ _ _ Hi Hset) as (Hev & Hown & _ & _).
    destruct (IH m1) as (m' & Hrun & Hc' & Hown' & Hget); [|done|].
    { intros x Hx. apply Hsub. by right. }
    exists m'. split; [done|]. split; [done|]. split; [congruence|].
    intros k. rewrite Hget, Hev, obj_get_set.
    destruct (decide (k ∈ keys)) as [Hk|Hk].
    + rewrite decide_True; [done|]. by right.
    + destruct (decide (k = key)) as [->|Hne].
      * rewrite decide_True; [done|]. by left.
      * rewrite decide_False; [done|]. rewrite elem_of_cons. tauto.
Qed.

Lemma _clone_ok this :
  Object_keys (_effectValues this) = effectNames ->
  exists m, _clone this = Normal m /\ consistent m /\
    _effectValues m = _effectValues this /\ ownProps m = [].
Proof.
  intros Hk. unfold EffectMap._clone. rewrite new_EffectMap_ok. cbn [mbind outcome_bind].
  rewrite Hk.
  destruct (clone_loop_ok this effectNames (mk 0 (zero_fill [] effectNames) []))
    as (m & Hrun & Hc & Hown & Hget); [done| |].
  { apply new_consistent, new_EffectMap_ok. }
  exists m. split; [done|]. split; [done|]. split; [|done].
  destruct Hc as [Hkm _]. apply obj_ext.
  - by rewrite Hkm.
  - by rewrite Hkm, Hk.
  - intros k. rewrite Hget. case_decide as Hin; [done|].
    simpl. rewrite obj_get_zero_fill, decide_False by done. simpl.
    symmetry. apply obj_get_notin. by rewrite Hk.
Qed.

Lemma reachable_consistent m : reachable m -> consistent m.
Proof.
  induction 1 as [m Hnew|m name val m' _ IH _ Hset|m m' _ IH Hcl|m m' _ IH Hcl].
  - by apply new_consistent.
  - eapply set_consistent; eauto.
  - destruct (clear_ok m (proj1 IH)) as (m0 & E & Hc & _). congruence.
  - destruct (_clone_ok m (proj1 IH)) as (m0 & E & Hc & _). congruence.
Qed.

(** C2.  At every instant of an effect map built and used through the class
    (constructor, property assignment, [clear], [_clone]) the bitmask
    equals the bitwise union of the bits of the effects whose value is not
    [0]: bit [j] is set exactly when the [j]-th effect name holds a
    non-zero value.  Assigning [val] to the effect bound to bit [i] stores
    the value and, in the same operation, makes bit [i] equal to
    [val !== 0] while every other bit keeps its state, so the result is
    again consistent; [clear] resets the bitmask and every effect value to
    [0]. *)
Theorem effect_bitmask_invariant (m : t) :
  reachable m ->
  (_bitmask m = mask_of (_effectValues m) /\
   forall j : nat, (j < 32)%nat ->
     Z.testbit (_bitmask m) (Z.of_nat j) = expected_bit (_effectValues m) j) /\
  (forall (i : nat) name val, effectNames !! i = Some name ->
     exists m', set m name val = Normal m' /\
       get m' name = Normal val /\
       _bitmask m' = mask_of (_effectValues m') /\
       forall j : nat, (j < 32)%nat ->
         Z.testbit (_bitmask m') (Z.of_nat j) =
         if decide (j = i) then negb (strict_eq_zero val)
         else Z.testbit (_bitmask m) (Z.of_nat j)) /\
  (exists m0, clear m = Normal m0 /\ _bitmask m0 = 0 /\
     _bitmask m0 = mask_of (_effectValues m0) /\
     forall n, n ∈ effectNames -> get m0 n = Normal (VNum 0)).
Proof.
  intros Hr. pose proof (reachable_consistent m Hr) as Hc.
  split; [|split].
  - split; [apply Hc|]. intros j Hj.
    rewrite (proj2 Hc). by apply testbit_mask_of.
  - intros i name val Hi.
    destruct (set_total m name val) as [m' Hset]. exists m'.
    destruct (set_registered _ _ _ _ _ Hi Hset) as (Hev & _ & _ & Hbits).
    split; [done|]. split; [|split; [|done]].
    + unfold EffectMap.get. rewrite (index_of_lookup _ _ _ names_distinct Hi).
      rewrite Hev, obj_get_set. by rewrite decide_True.
    + by apply (set_consistent _ _ _ _ Hc Hset).
  - destruct (clear_ok m (proj1 Hc)) as (m0 & Hcl & Hc0 & Hb0 & _ & Hz).
    exists m0. split; [done|]. split; [done|]. split; [apply Hc0|].
    intros n Hn. unfold EffectMap.get.
    destruct (index_of n effectNames) eqn:E.
    + by rewrite Hz.
    + by apply index_of_None in E.
Qed.


End WellFormed.
End WithNames.

Lemma scratch_effects_distinct : NoDup scratch_effects.
Proof. apply (bool_decide_unpack _). vm_compute. reflexivity. Qed.

Lemma scratch_effects_fit : (length scratch_effects <= 32)%nat.
Proof. simpl. lia. Qed.

Lemma fresh_map_new : new_EffectMap scratch_effects = Normal fresh_map.
Proof. reflexivity. Qed.

Example ghost_sets_bit_6 :
  (m ← set scratch_effects fresh_map "ghost" (VNum 50); mret (_bitmask m))
  = Normal 64.
Proof. reflexivity. Qed.

Example ghost_then_zero_clears_bit_6 :
  (m1 ← set scratch_effects fresh_map "color" (VNum 10);
   m2 ← set scratch_effects m1 "ghost" (VNum 50);
   m3 ← set scratch_effects m2 "ghost" (VNum 0);
   mret (_bitmask m3)) = Normal 1.
Proof. reflexivity. Qed.

Lemma effect_bitmask_invariant_witness :
  NoDup scratch_effects /\ (length scratch_effects <= 32)%nat /\
  reachable scratch_effects fresh_map /\
  _bitmask fresh_map = mask_of scratch_effects (_effectValues fresh_map).
Proof.
  split; [exact scratch_effects_distinct|].
  split; [exact scratch_effects_fit|].
  split; [apply reach_new; reflexivity|].
  exact (proj1 (proj1 (effect_bitmask_invariant scratch_effects
    scratch_effects_distinct scratch_effects_fit fresh_map
    (reach_new _ _ fresh_map_new)))).
Defined.



End EffectMapFacts.

(** ** The setters of a sprite and [glide] *)

Module SpriteFacts.
Import JsNum JsNumFacts Obj Sprite.




Lemma costume_range (s : t Q) :
  0 < Z.of_nat (length (costumes s)) ->
  (0 < inject_Z (Z.of_nat (length (costumes s))) - 1 + 1)%Q.
Proof.
  intros Hc. rewrite Zlt_Qlt in Hc. change (inject_Z 0) with 0%Q in Hc. lra.
Qed.

(** For any number [n], integer or not, the stored costume number is at
    least [1] and below [c + 1]. *)
Lemma costume_number_bounds_any (s : t Q) (n : Q) :
  0 < Z.of_nat (length (costumes s)) ->
  (1 <= _costumeNumber (set_costumeNumber s n) /\
   _costumeNumber (set_costumeNumber s n)
   < inject_Z (Z.of_nat (length (costumes s))) + 1)%Q.
Proof.
  intros Hc. simpl. apply wrapClamp_bounds. by apply costume_range.
Qed.




(** *** [glide] *)








End SpriteFacts.

(** ** [move] *)

Module MoveFacts.
Import Sprite RealMotion.
Open Scope R_scope.







End MoveFacts.

(** ** Clones *)

Module WorldFacts.
Import Obj Sprite World.

Lemma find_original_ancestry (w : world) l n root :
  ancestry w l n root ->
  forall fuel, (n < fuel)%nat -> find_original fuel w l = Some root.
Proof.
  induction 1 as [l s Hs Hp|l s p n root Hs Hp _ IH]; intros [|fuel] Hlt;
    try lia; simpl; rewrite Hs; simpl; rewrite Hp.
  - done.
  - apply IH. lia.
Qed.

Lemma ancestry_root_orphan (w : world) l n root :
  ancestry w l n root -> exists rs, sprites w !! root = Some rs /\ parent rs = None.
Proof. induction 1; eauto. Qed.

Section Clones.
Variable effectNames : list string.
Hypothesis names_distinct : NoDup effectNames.
Hypothesis names_fit : (length effectNames <= 32)%nat.

(** The store and the clone that [createClone] produces, spelled out. *)
Lemma createClone_result (fuel : nat) (w : world) (this : loc)
  s em vars n root rs rc :
  sprites w !! this = Some s ->
  effectMaps w !! effects s = Some em ->
  EffectMap.reachable effectNames em ->
  varObjects w !! _vars s = Some vars ->
  ancestry w this n root ->
  sprites w !! root = Some rs ->
  effectChains w !! effectChain rs = Some rc ->
  (n < fuel)%nat ->
  exists em',
    EffectMap._clone effectNames em = Normal em' /\
    EffectMap._effectValues em' = EffectMap._effectValues em /\
    EffectMap._bitmask em' = EffectMap._bitmask em /\
    let clone := fresh (dom (sprites w)) in
    let vars' := fresh (dom (varObjects w)) in
    let effects' := fresh (dom (effectMaps w)) in
    let chain' := fresh (dom (effectChains w)) in
    let cs :=
      Sprite.mk (_costumeNumber s) (_layerOrder s)
        (map (fun tr => mkTrigger (trigger tr) (options tr) (_script tr)) (triggers s))
        (costumes s) (sounds s) chain' effects' chain' vars'
        (_x s) (_y s) (_direction s) (rotationStyle s) (size s) (visible s)
        (Some this) [] (_penDown s) (penSize s) (_penColor s)
        (mkBubble String.EmptyString "say" None) in
    exists running',
    createClone effectNames fuel w this =
    Some (mkWorld
            (<[this := with_clones s (clones s ++ [clone])]>
               (<[clone := cs]> (sprites w)))
            (<[effects' := em']> (effectMaps w))
            (<[vars' := vars]> (varObjects w))
            (<[chain' := EffectChain_clone rc clone]> (effectChains w))
            running',
          clone).
Proof.
  intros Hs Hem Hreach Hvars Hanc Hroot Hrc Hfuel.
  pose proof (EffectMapFacts.reachable_consistent effectNames names_distinct names_fit
                em Hreach) as [Hkeys Hmask].
  destruct (EffectMapFacts._clone_ok effectNames names_distinct names_fit em Hkeys)
    as (em' & Hclone & [Hkeys' Hmask'] & Hvals & _).
  exists em'. split; [done|]. split; [done|].
  split; [by rewrite Hmask', Hmask, Hvals|].
  intros clone vars' effects' chain' cs. eexists.
  unfold createClone. rewrite Hs. cbn [mbind option_bind].
  rewrite Hvars. cbn [mbind option_bind].
  rewrite Hem. cbn [mbind option_bind].
  rewrite Hclone. cbn [mbind option_bind].
  rewrite (find_original_ancestry w this n root Hanc fuel Hfuel). cbn [mbind option_bind].
  rewrite Hroot. cbn [mbind option_bind].
  rewrite Hrc. cbn [mbind option_bind].
  reflexivity.
Qed.

Lemma fresh_lookup_None {A} (m : gmap loc A) : m !! fresh (dom m) = None.
Proof. apply not_elem_of_dom, is_fresh. Qed.

Lemma fresh_ne {A} (m : gmap loc A) k v : m !! k = Some v -> k <> fresh (dom m).
Proof. intros Hk ->. by rewrite fresh_lookup_None in Hk. Qed.

(** C6.  For a sprite [this] at any depth [n] below its top-most ancestor
    [root], [createClone] returns a new sprite whose effect chain is a new
    routing object obtained by cloning the chain of [root] (with the sound
    list of the new clone), whatever the chain of [this] is; the
    [AudioEffectMap] of the clone acts on that chain; the parent of the
    clone is [this], and the clone is the last element of the clones list
    of [this]. *)
Theorem createClone_chain_from_root (fuel : nat) (w : world) (this : loc)
  s em vars n root rs rc :
  sprites w !! this = Some s ->
  effectMaps w !! effects s = Some em ->
  EffectMap.reachable effectNames em ->
  varObjects w !! _vars s = Some vars ->
  ancestry w this n root ->
  sprites w !! root = Some rs ->
  effectChains w !! effectChain rs = Some rc ->
  (n < fuel)%nat ->
  exists w' clone cs s',
    createClone effectNames fuel w this = Some (w', clone) /\
    sprites w !! clone = None /\
    sprites w' !! clone = Some cs /\
    effectChains w !! effectChain cs = None /\
    effectChains w' !! effectChain cs = Some (EffectChain_clone rc clone) /\
    audioEffects cs = effectChain cs /\
    parent cs = Some this /\
    sprites w' !! this = Some s' /\
    clones s' = clones s ++ [clone] /\
    clone ∈ clones s'.
Proof.
  intros Hs Hem Hreach Hvars Hanc Hroot Hrc Hfuel.
  destruct (createClone_result fuel w this s em vars n root rs rc
              Hs Hem Hreach Hvars Hanc Hroot Hrc Hfuel)
    as (em' & _ & _ & _ & Hres).
  cbv zeta in Hres. destruct Hres as [running' Hres].
  pose proof (fresh_ne _ _ _ Hs) as Hne.
  eexists _, _, _, _. split; [exact Hres|]. cbn [sprites effectChains].
  split; [apply fresh_lookup_None|].
  split; [by rewrite lookup_insert_ne, lookup_insert_eq|].
  cbn [effectChain audioEffects parent].
  split; [apply fresh_lookup_None|].
  split; [by rewrite lookup_insert_eq|].
  split; [done|]. split; [done|].
  split; [by rewrite lookup_insert_eq|].
  cbn [with_clones clones]. split; [done|].
  apply elem_of_app. right. by apply list_elem_of_singleton.
Qed.


End Clones.

(** C5.  [deleteThisClone] on a sprite without parent returns the store as
    it is.  On a clone it removes the clone from the clones list of its
    parent, keeping the other clones in order, and removes from the
    running triggers exactly the entries whose target is the clone, so
    that no remaining entry targets it and a tick of the scheduler resumes
    no task of the clone; every other sprite and every other object of the
    store is left as it was. *)
Theorem deleteThisClone_effect (w : world) (this : loc) (s : Sprite.t Q) :
  sprites w !! this = Some s ->
  (parent s = None -> deleteThisClone w this = Some w) /\
  (forall p ps, parent s = Some p -> sprites w !! p = Some ps ->
     exists w' ps',
       deleteThisClone w this = Some w' /\
       sprites w' !! p = Some ps' /\
       clones ps' = filter (fun clone => clone ≠ this) (clones ps) /\
       (this ∉ clones ps') /\
       (forall c, c ∈ clones ps' <-> c ∈ clones ps /\ c ≠ this) /\
       runningTriggers w'
         = filter (fun rt => target rt ≠ this) (runningTriggers w) /\
       (forall rt, rt ∈ runningTriggers w'
                   <-> rt ∈ runningTriggers w /\ target rt ≠ this) /\
       Forall (fun rt => target rt ≠ this) (runningTriggers w') /\
       (this ∉ resumed_by_tick w') /\
       (forall l, l ≠ p -> sprites w' !! l = sprites w !! l) /\
       effectMaps w' = effectMaps w /\
       varObjects w' = varObjects w /\
       effectChains w' = effectChains w).
Proof.
  intros Hs. unfold deleteThisClone. rewrite Hs. cbn [mbind option_bind].
  split.
  - by intros ->.
  - intros p ps -> Hp. rewrite Hp. cbn [mbind option_bind].
    eexists _, _. split; [reflexivity|].
    cbn [sprites runningTriggers effectMaps varObjects effectChains].
    split; [by rewrite lookup_insert_eq|]. cbn [with_clones clones].
    split; [done|].
    split; [intros Hin; by apply list_elem_of_filter in Hin as [Hne _]|].
    split; [intros c; rewrite list_elem_of_filter; tauto|].
    split; [done|].
    split; [intros rt; rewrite list_elem_of_filter; tauto|].
    split.
    { apply Forall_forall. intros rt Hin. by apply list_elem_of_filter in Hin as [Hne _]. }
    split.
    { unfold resumed_by_tick. cbn [runningTriggers]. rewrite list_elem_of_fmap.
      intros (rt & -> & Hin). by apply list_elem_of_filter in Hin as [Hne _]. }
    split; [intros l Hl; by rewrite lookup_insert_ne|done].
Qed.

Lemma child_effects_reachable :
  EffectMap.reachable EffectMap.scratch_effects child_effects.
Proof.
  apply (EffectMap.reach_set _ EffectMap.fresh_map "ghost" (VNum 50)).
  - apply EffectMap.reach_new. reflexivity.
  - apply (bool_decide_unpack _). vm_compute. reflexivity.
  - reflexivity.
Qed.

Lemma child_ancestry : ancestry sample_world 2%positive 1 1%positive.
Proof.
  apply (ancestry_step _ _ child_sprite 1%positive); [reflexivity|reflexivity|].
  apply (ancestry_root _ _ root_sprite); reflexivity.
Qed.

(** A clone of the clone gets the routing of the original sprite (volume
    100), not that of its parent (volume 50). *)
Example grandchild_chain_is_roots :
  ('(w', c) ← createClone EffectMap.scratch_effects 3 sample_world 2%positive;
   cs ← sprites w' !! c;
   effectChains w' !! effectChain cs)
  = Some (mkChain [("volume", VNum 100)] 3%positive).
Proof. vm_compute. reflexivity. Qed.

Example delete_child :
  (w' ← deleteThisClone sample_world 2%positive;
   ps ← sprites w' !! 1%positive;
   Some (clones ps, runningTriggers w'))
  = Some ([], [mkRunning green_flag 1%positive]).
Proof. vm_compute. reflexivity. Qed.

Lemma deleteThisClone_effect_witness :
  sprites sample_world !! 2%positive = Some child_sprite /\
  exists w' ps',
    deleteThisClone sample_world 2%positive = Some w' /\
    sprites w' !! 1%positive = Some ps' /\
    clones ps' = [].
Proof.
  assert (Hc : sprites sample_world !! 2%positive = Some child_sprite) by reflexivity.
  assert (Hp : sprites sample_world !! 1%positive = Some root_sprite) by reflexivity.
  split; [exact Hc|].
  destruct (proj2 (deleteThisClone_effect sample_world 2%positive child_sprite Hc)
              1%positive root_sprite eq_refl Hp)
    as (w' & ps' & Hdel & Hl & Hcl & _).
  exists w', ps'. split; [exact Hdel|]. split; [exact Hl|]. exact Hcl.
Defined.

Lemma createClone_chain_from_root_witness :
  NoDup EffectMap.scratch_effects /\
  (length EffectMap.scratch_effects <= 32)%nat /\
  sprites sample_world !! 2%positive = Some child_sprite /\
  effectMaps sample_world !! effects child_sprite = Some child_effects /\
  EffectMap.reachable EffectMap.scratch_effects child_effects /\
  varObjects sample_world !! _vars child_sprite = Some [("score", VNum 4)] /\
  ancestry sample_world 2%positive 1 1%positive /\
  sprites sample_world !! 1%positive = Some root_sprite /\
  effectChains sample_world !! effectChain root_sprite
    = Some (mkChain [("volume", VNum 100)] 1%positive) /\
  (1 < 3)%nat /\
  exists w' clone cs,
    createClone EffectMap.scratch_effects 3 sample_world 2%positive
      = Some (w', clone) /\
    sprites w' !! clone = Some cs /\
    effectChains w' !! effectChain cs
      = Some (EffectChain_clone (mkChain [("volume", VNum 100)] 1%positive) clone).
Proof.
  assert (H1 : sprites sample_world !! 2%positive = Some child_sprite) by reflexivity.
  assert (H2 : effectMaps sample_world !! effects child_sprite = Some child_effects)
    by reflexivity.
  assert (H3 : varObjects sample_world !! _vars child_sprite = Some [("score", VNum 4)])
    by reflexivity.
  assert (H4 : sprites sample_world !! 1%positive = Some root_sprite) by reflexivity.
  assert (H5 : effectChains sample_world !! effectChain root_sprite
               = Some (mkChain [("volume", VNum 100)] 1%positive)) by reflexivity.
  assert (H6 : (1 < 3)%nat) by lia.
  repeat (split; [first [exact EffectMapFacts.scratch_effects_distinct
                        |exact EffectMapFacts.scratch_effects_fit
                        |exact child_effects_reachable
                        |exact child_ancestry
                        |assumption]|]).
  destruct (createClone_chain_from_root EffectMap.scratch_effects
              EffectMapFacts.scratch_effects_distinct EffectMapFacts.scratch_effects_fit
              3 sample_world 2%positive _ _ _ _ _ _ _
              H1 H2 child_effects_reachable H3 child_ancestry H4 H5 H6)
    as (w' & clone & cs & s' & Hres & _ & Hcs & _ & Hchain & _).
  exists w', clone, cs. split; [exact Hres|]. split; [exact Hcs|exact Hchain].
Defined.



End WorldFacts.

(** ** More on effect maps *)

Module EffectMapMore.
Import Int32 Int32Facts Obj ObjFacts EffectMap EffectMapFacts.

Section WithNames.
Variable effectNames : list string.
Hypothesis names_distinct : NoDup effectNames.
Hypothesis names_fit : (length effectNames <= 32)%nat.

Local Abbreviation new_EffectMap := (EffectMap.new_EffectMap effectNames).
Local Abbreviation get := (EffectMap.get effectNames).
Local Abbreviation set := (EffectMap.set effectNames).
Local Abbreviation _clone := (EffectMap._clone effectNames).
Local Abbreviation mask_of := (EffectMap.mask_of effectNames).
Local Abbreviation expected_bit := (EffectMap.expected_bit effectNames).
Local Abbreviation consistent := (EffectMap.consistent effectNames).
Local Abbreviation reachable := (EffectMap.reachable effectNames).

Lemma reachable_int32 (m : t) : reachable m -> is_int32 (_bitmask m).
Proof.
  intros Hr. destruct (reachable_consistent effectNames names_distinct names_fit m Hr)
    as [_ ->]. apply mask_from_int32.
Qed.

Lemma get_registered (m : t) (j : nat) name :
  effectNames !! j = Some name -> get m name = Normal (obj_get (_effectValues m) name).
Proof.
  intros Hj. unfold EffectMap.get.
  by rewrite (index_of_lookup _ _ _ names_distinct Hj).
Qed.

(** The bitmask identifies the set of enabled effects: two effect maps
    built through the class have the same bitmask exactly when the same
    effects hold a value other than [0]. *)
Theorem bitmask_identifies_enabled_effects (m1 m2 : t) :
  reachable m1 -> reachable m2 ->
  (_bitmask m1 = _bitmask m2 <->
   forall name, name ∈ effectNames ->
     strict_eq_zero (obj_get (_effectValues m1) name)
     = strict_eq_zero (obj_get (_effectValues m2) name)).
Proof.
  intros H1 H2.
  destruct (reachable_consistent effectNames names_distinct names_fit m1 H1) as [_ E1].
  destruct (reachable_consistent effectNames names_distinct names_fit m2 H2) as [_ E2].
  split.
  - intros Heq name Hin. apply list_elem_of_lookup_1 in Hin as [j Hj].
    pose proof (lookup_lt_Some _ _ _ Hj) as Hlt.
    assert (Hb : Z.testbit (_bitmask m1) (Z.of_nat j) = Z.testbit (_bitmask m2) (Z.of_nat j))
      by (by rewrite Heq).
    rewrite E1, E2 in Hb.
    rewrite !(testbit_mask_of effectNames) in Hb by lia.
    unfold EffectMap.expected_bit in Hb. rewrite Hj in Hb.
    by destruct (strict_eq_zero _), (strict_eq_zero _).
  - intros Hsame. rewrite E1, E2. by apply mask_of_ext.
Qed.

(** [_clone] yields an effect map with the values and the bitmask of the
    receiver and without any of its plain properties. *)
Theorem clone_copies_effects_only (m : t) :
  reachable m ->
  _clone m = Normal (mk (_bitmask m) (_effectValues m) []).
Proof.
  intros Hr.
  destruct (reachable_consistent effectNames names_distinct names_fit m Hr) as [Hk Hb].
  destruct (_clone_ok effectNames names_distinct names_fit m Hk)
    as ([b ev p] & -> & [_ Hb'] & Hev & Hp).
  simpl in *. subst. by rewrite Hb.
Qed.

(** [clear] puts the effect values and the bitmask back to what the
    constructor builds, and keeps the plain properties. *)
Theorem clear_restores_constructed_state (m : t) :
  reachable m ->
  exists m0, new_EffectMap = Normal m0 /\
    clear m = Normal (mk (_bitmask m0) (_effectValues m0) (ownProps m)).
Proof.
  intros Hr.
  destruct (reachable_consistent effectNames names_distinct names_fit m Hr) as [Hk _].
  eexists. split; [apply new_EffectMap_ok; done|].
  unfold clear. simpl. rewrite Hk. do 2 f_equal.
  assert (K1 : Object_keys (zero_fill (_effectValues m) effectNames) = effectNames).
  { rewrite keys_zero_fill_in; [done|]. by rewrite Hk. }
  assert (K2 : Object_keys (zero_fill [] effectNames) = effectNames).
  { rewrite keys_zero_fill_fresh; [done|done|]. intros n _. apply not_elem_of_nil. }
  apply obj_ext.
  - by rewrite K1.
  - by rewrite K1, K2.
  - intros k. rewrite !obj_get_zero_fill. case_decide as Hin; [done|].
    simpl. apply obj_get_notin. by rewrite Hk.
Qed.

(** Assignments to two different registered effects commute. *)
Theorem effect_assignments_commute (m : t) (n1 n2 : string) (v1 v2 : jsval) :
  reachable m -> n1 ∈ effectNames -> n2 ∈ effectNames -> n1 <> n2 ->
  (m1 ← set m n1 v1; set m1 n2 v2) = (m2 ← set m n2 v2; set m2 n1 v1).
Proof.
  intros Hr Hn1 Hn2 Hne.
  pose proof (reachable_consistent effectNames names_distinct names_fit m Hr) as Hc.
  apply list_elem_of_lookup_1 in Hn1 as [i1 Hi1].
  apply list_elem_of_lookup_1 in Hn2 as [i2 Hi2].
  destruct (set_total effectNames m n1 v1) as [a Ha].
  destruct (set_total effectNames m n2 v2) as [b Hb].
  rewrite Ha, Hb. cbn [mbind outcome_bind].
  destruct (set_total effectNames a n2 v2) as [a' Ha'].
  destruct (set_total effectNames b n1 v1) as [b' Hb'].
  rewrite Ha', Hb'. f_equal.
  pose proof (set_consistent effectNames names_distinct names_fit _ _ _ _ Hc Ha) as Hca.
  pose proof (set_consistent effectNames names_distinct names_fit _ _ _ _ Hc Hb) as Hcb.
  pose proof (set_consistent effectNames names_distinct names_fit _ _ _ _ Hca Ha') as [Ka Ma].
  pose proof (set_consistent effectNames names_distinct names_fit _ _ _ _ Hcb Hb') as [Kb Mb].
  destruct (set_registered effectNames names_distinct names_fit _ _ _ _ _ Hi1 Ha) as (Ea & Oa & _).
  destruct (set_registered effectNames names_distinct names_fit _ _ _ _ _ Hi2 Hb) as (Eb & Ob & _).
  destruct (set_registered effectNames names_distinct names_fit _ _ _ _ _ Hi2 Ha') as (Ea' & Oa' & _).
  destruct (set_registered effectNames names_distinct names_fit _ _ _ _ _ Hi1 Hb') as (Eb' & Ob' & _).
  assert (Hev : _effectValues a' = _effectValues b').
  { apply obj_ext.
    - by rewrite Ka.
    - by rewrite Ka, Kb.
    - intros k. rewrite Ea', Eb', Ea, Eb, !obj_get_set.
      repeat case_decide; congruence. }
  destruct a' as [ba eva pa], b' as [bb evb pb]. simpl in *.
  f_equal; congruence.
Qed.

End WithNames.

Lemma ghost_map_reachable :
  reachable scratch_effects
    (mk 64 (obj_set (_effectValues fresh_map) "ghost" (VNum 50)) []).
Proof.
  apply (reach_set _ fresh_map "ghost" (VNum 50)).
  - apply reach_new. reflexivity.
  - apply (bool_decide_unpack _). vm_compute. reflexivity.
  - reflexivity.
Qed.

Lemma bitmask_identifies_enabled_effects_witness :
  NoDup scratch_effects /\ (length scratch_effects <= 32)%nat /\
  reachable scratch_effects fresh_map /\
  reachable scratch_effects
    (mk 64 (obj_set (_effectValues fresh_map) "ghost" (VNum 50)) []) /\
  ~ (forall name, name ∈ scratch_effects ->
       strict_eq_zero (obj_get (_effectValues fresh_map) name)
       = strict_eq_zero
           (obj_get (obj_set (_effectValues fresh_map) "ghost" (VNum 50)) name)).
Proof.
  split; [exact scratch_effects_distinct|].
  split; [exact scratch_effects_fit|].
  split; [exact (reach_new _ _ fresh_map_new)|].
  split; [exact ghost_map_reachable|].
  intros H.
  apply (proj2 (bitmask_identifies_enabled_effects scratch_effects
                  scratch_effects_distinct scratch_effects_fit _ _
                  (reach_new _ _ fresh_map_new) ghost_map_reachable)) in H.
  discriminate H.
Defined.

Lemma clone_copies_effects_only_witness :
  NoDup scratch_effects /\ (length scratch_effects <= 32)%nat /\
  reachable scratch_effects fresh_map /\
  EffectMap._clone scratch_effects fresh_map
  = Normal (mk (_bitmask fresh_map) (_effectValues fresh_map) []).
Proof.
  split; [exact scratch_effects_distinct|].
  split; [exact scratch_effects_fit|].
  split; [exact (reach_new _ _ fresh_map_new)|].
  exact (clone_copies_effects_only scratch_effects scratch_effects_distinct
           scratch_effects_fit fresh_map (reach_new _ _ fresh_map_new)).
Defined.

Lemma clear_restores_constructed_state_witness :
  NoDup scratch_effects /\ (length scratch_effects <= 32)%nat /\
  reachable scratch_effects
    (mk 64 (obj_set (_effectValues fresh_map) "ghost" (VNum 50)) []) /\
  exists m0, EffectMap.new_EffectMap scratch_effects = Normal m0 /\
    clear (mk 64 (obj_set (_effectValues fresh_map) "ghost" (VNum 50)) [])
    = Normal (mk (_bitmask m0) (_effectValues m0) []).
Proof.
  split; [exact scratch_effects_distinct|].
  split; [exact scratch_effects_fit|].
  split; [exact ghost_map_reachable|].
  exact (clear_restores_constructed_state scratch_effects scratch_effects_distinct
           scratch_effects_fit _ ghost_map_reachable).
Defined.

Lemma effect_assignments_commute_witness :
  NoDup scratch_effects /\ (length scratch_effects <= 32)%nat /\
  reachable scratch_effects fresh_map /\
  ("ghost" ∈ scratch_effects) /\ ("color" ∈ scratch_effects) /\
  "ghost" <> "color" /\
  (m1 ← EffectMap.set scratch_effects fresh_map "ghost" (VNum 50);
   EffectMap.set scratch_effects m1 "color" (VNum 10))
  = (m2 ← EffectMap.set scratch_effects fresh_map "color" (VNum 10);
     EffectMap.set scratch_effects m2 "ghost" (VNum 50)).
Proof.
  assert (H1 : "ghost" ∈ scratch_effects)
    by (apply (bool_decide_unpack _); vm_compute; reflexivity).
  assert (H2 : "color" ∈ scratch_effects)
    by (apply (bool_decide_unpack _); vm_compute; reflexivity).
  assert (H3 : "ghost" <> "color") by discriminate.
  split; [exact scratch_effects_distinct|].
  split; [exact scratch_effects_fit|].
  split; [exact (reach_new _ _ fresh_map_new)|].
  split; [exact H1|]. split; [exact H2|]. split; [exact H3|].
  exact (effect_assignments_commute scratch_effects scratch_effects_distinct
           scratch_effects_fit fresh_map "ghost" "color" (VNum 50) (VNum 10)
           (reach_new _ _ fresh_map_new) H1 H2 H3).
Defined.

End EffectMapMore.

(** ** Random numbers, costumes, sounds and [wait] *)

Module SpriteBaseFacts.
Import JsNum JsNumFacts Obj Sprite SpriteBase.







(** *** Integers among the rationals *)

Lemma Qtrunc_comp (p q : Q) : (p == q)%Q -> Qtrunc p = Qtrunc q.
Proof.
  intros E. unfold Qtrunc.
  assert (Hb : Qle_bool 0 p = Qle_bool 0 q).
  { destruct (Qle_bool 0 p) eqn:Ep, (Qle_bool 0 q) eqn:Eq; try done.
    - apply Qle_bool_iff in Ep. rewrite E in Ep. apply Qle_bool_iff in Ep. congruence.
    - apply Qle_bool_iff in Eq. rewrite <- E in Eq. apply Qle_bool_iff in Eq. congruence. }
  rewrite Hb. destruct (Qle_bool 0 q); [by apply Qfloor_comp|by apply Qceiling_comp].
Qed.

Lemma Qtrunc_Z (z : Z) : Qtrunc (inject_Z z) = z.
Proof. unfold Qtrunc. destruct (Qle_bool 0 (inject_Z z)); [apply Qfloor_Z|apply Qceiling_Z]. Qed.

Lemma array_get_int {A} (l : list A) (i : Q) (z : Z) :
  (i == inject_Z z)%Q ->
  array_get l i = if 0 <=? z then l !! Z.to_nat z else None.
Proof.
  intros E. unfold array_get.
  assert (Hf : Qfloor i = z) by (rewrite (Qfloor_comp _ _ E); apply Qfloor_Z).
  rewrite Hf. replace (Qeq_bool (inject_Z z) i) with true; [done|].
  symmetry. apply Qeq_bool_iff. by symmetry.
Qed.

Lemma array_get_fraction {A} (l : list A) (i : Q) :
  ~ (inject_Z (Qfloor i) == i)%Q -> array_get l i = None.
Proof.
  intros H. unfold array_get.
  destruct (Qeq_bool (inject_Z (Qfloor i)) i) eqn:E; [|done].
  by apply Qeq_bool_iff in E.
Qed.


(** *** The costume *)

Lemma wrapClamp_int (q : Q) (k c : Z) :
  (q == inject_Z k)%Q -> 0 < c ->
  (wrapClamp q 1 (inject_Z c) == inject_Z (1 + (k - 1) mod c))%Q.
Proof.
  intros E Hc.
  rewrite (wrapClamp_proper q (inject_Z k) E 1%Q (inject_Z 1) eq_refl
             (inject_Z c) (inject_Z c) (Qeq_refl _)).
  rewrite (wrapClamp_Z k 1 c) by lia.
  by replace (c - 1 + 1) with c by lia.
Qed.

Section Costume.
Variable numeric_string : string -> option Q.

Local Abbreviation set_costume := (SpriteBase.set_costume numeric_string).

Lemma set_costume_next (r : Q) (s : t Q) :
  "next costume" ∉ costumes s ->
  set_costume r s (VStr "next costume")
  = set_costumeNumber s (_costumeNumber s + 1)%Q.
Proof.
  intros Hn. apply EffectMapFacts.index_of_None in Hn.
  unfold SpriteBase.set_costume. by rewrite Hn.
Qed.

Lemma set_costume_previous (r : Q) (s : t Q) :
  "previous costume" ∉ costumes s ->
  set_costume r s (VStr "previous costume")
  = set_costumeNumber s (_costumeNumber s - 1)%Q.
Proof.
  intros Hn. apply EffectMapFacts.index_of_None in Hn.
  unfold SpriteBase.set_costume. by rewrite Hn.
Qed.

(** With [c > 0] costumes, none of them named like the keywords, and an
    integer costume number [k] in [[1, c]]: ["next costume"] stores
    [k + 1], or [1] after the last costume; ["previous costume"] stores
    [k - 1], or [c] before the first; and each undoes the other. *)
Theorem next_and_previous_costume (r1 r2 : Q) (s : t Q) (k : Z) :
  let c := Z.of_nat (length (costumes s)) in
  "next costume" ∉ costumes s -> "previous costume" ∉ costumes s ->
  (_costumeNumber s == inject_Z k)%Q -> 1 <= k <= c ->
  let next := set_costume r1 s (VStr "next costume") in
  let previous := set_costume r1 s (VStr "previous costume") in
  (_costumeNumber next == inject_Z (if k =? c then 1 else k + 1))%Q /\
  (_costumeNumber previous == inject_Z (if k =? 1 then c else k - 1))%Q /\
  (_costumeNumber (set_costume r2 next (VStr "previous costume"))
   == _costumeNumber s)%Q /\
  (_costumeNumber (set_costume r2 previous (VStr "next costume"))
   == _costumeNumber s)%Q.
Proof.
  intros c Hn Hp Hk Hr next previous. subst next previous.
  assert (Hc : 0 < c) by lia.
  rewrite ?set_costume_next, ?set_costume_previous by done.
  rewrite ?set_costume_next, ?set_costume_previous by done.
  cbn [set_costumeNumber with_costumeNumber _costumeNumber costumes]. fold c.
  assert (Eup : (_costumeNumber s + 1 == inject_Z (k + 1))%Q)
    by (rewrite inject_Z_plus, Hk; reflexivity).
  assert (Edown : (_costumeNumber s - 1 == inject_Z (k - 1))%Q).
  { unfold Z.sub. rewrite inject_Z_plus, Hk. reflexivity. }
  assert (Nx : (wrapClamp (_costumeNumber s + 1) 1 (inject_Z c)
                == inject_Z (if k =? c then 1 else k + 1))%Q).
  { rewrite (wrapClamp_int _ (k + 1) c Eup Hc).
    destruct (Z.eqb_spec k c) as [->|Hne].
    - replace (c + 1 - 1) with (0 + 1 * c) by lia. by rewrite Z.mod_add by lia.
    - by rewrite Z.mod_small by lia; replace (1 + (k + 1 - 1)) with (k + 1) by lia. }
  assert (Pv : (wrapClamp (_costumeNumber s - 1) 1 (inject_Z c)
                == inject_Z (if k =? 1 then c else k - 1))%Q).
  { rewrite (wrapClamp_int _ (k - 1) c Edown Hc).
    destruct (Z.eqb_spec k 1) as [->|Hne].
    - replace (1 - 1 - 1) with (c - 1 + (-1) * c) by lia.
      rewrite Z.mod_add, Z.mod_small by lia. by replace (1 + (c - 1)) with c by lia.
    - by rewrite Z.mod_small by lia; replace (1 + (k - 1 - 1)) with (k - 1) by lia. }
  split; [exact Nx|]. split; [exact Pv|]. split.
  - assert (E : (wrapClamp (_costumeNumber s + 1) 1 (inject_Z c) - 1
                 == inject_Z ((if k =? c then 1 else k + 1) - 1))%Q).
    { rewrite Nx. unfold Z.sub. rewrite inject_Z_plus. reflexivity. }
    rewrite (wrapClamp_int _ _ c E Hc), Hk.
    destruct (Z.eqb_spec k c) as [->|Hne].
    + replace (1 - 1 - 1) with (c - 1 + (-1) * c) by lia.
      rewrite Z.mod_add, Z.mod_small by lia. by replace (1 + (c - 1)) with c by lia.
    + by rewrite Z.mod_small by lia; replace (1 + (k + 1 - 1 - 1)) with k by lia.
  - assert (E : (wrapClamp (_costumeNumber s - 1) 1 (inject_Z c) + 1
                 == inject_Z ((if k =? 1 then c else k - 1) + 1))%Q).
    { rewrite Pv. rewrite inject_Z_plus. reflexivity. }
    rewrite (wrapClamp_int _ _ c E Hc), Hk.
    destruct (Z.eqb_spec k 1) as [->|Hne].
    + replace (c + 1 - 1) with (0 + 1 * c) by lia. by rewrite Z.mod_add by lia.
    + by rewrite Z.mod_small by lia; replace (1 + (k - 1 + 1 - 1)) with k by lia.
Qed.


(** ["random costume"] with at least two costumes, none named like the
    keywords, and [Math.random()] in [[0, 1)]: the stored costume number is
    an integer of [[1, c]] and differs from the costume number before,
    whatever that was. *)
Theorem random_costume_differs (r : Q) (s : t Q) :
  let c := Z.of_nat (length (costumes s)) in
  "random costume" ∉ costumes s ->
  (0 <= r)%Q -> (r < 1)%Q -> 2 <= c ->
  let s' := set_costume r s (VStr "random costume") in
  (exists z, (_costumeNumber s' == inject_Z z)%Q /\ 1 <= z <= c) /\
  ~ (_costumeNumber s' == _costumeNumber s)%Q.
Proof.
  intros c Hrnd Hr0 Hr1 Hc s'. subst s'.
  apply EffectMapFacts.index_of_None in Hrnd.
  unfold SpriteBase.set_costume. rewrite Hrnd. cbn [bool_decide orb].
  cbv zeta. fold c.
  cbn [set_costumeNumber with_costumeNumber _costumeNumber costumes]. fold c.
  set (f := Qfloor (r * (inject_Z c - 1))).
  assert (Hf : 0 <= f <= c - 2).
  { subst f. split.
    - change 0 with (Qfloor 0). apply Qfloor_resp_le.
      apply Qmult_le_0_compat; [done|].
      assert (H : (inject_Z 2 <= inject_Z c)%Q) by (by rewrite <- Zle_Qle).
      change (inject_Z 2) with 2%Q in H. lra.
    - assert (H : (inject_Z 2 <= inject_Z c)%Q) by (by rewrite <- Zle_Qle).
      change (inject_Z 2) with 2%Q in H.
      destruct (Math_floor_bounds (r * (inject_Z c - 1))) as [Fl _].
      unfold Math_floor in Fl.
      assert (H2 : (inject_Z (Qfloor (r * (inject_Z c - 1))) < inject_Z (c - 1))%Q).
      { unfold Z.sub. rewrite inject_Z_plus. change (inject_Z (- (1))) with (-1)%Q.
        assert (r * (inject_Z c - 1) < 1 * (inject_Z c - 1))%Q
          by (apply Qmult_lt_compat_r; lra).
        lra. }
      rewrite <- Zlt_Qlt in H2. lia. }
  assert (E0 : (1 + Math_floor (r * (inject_Z c - 1)) == inject_Z (1 + f))%Q)
    by (unfold Math_floor; fold f; rewrite inject_Z_plus; reflexivity).
  destruct (Qle_bool (_costumeNumber s) (1 + Math_floor (r * (inject_Z c - 1)))) eqn:Ex.
  - apply Qle_bool_iff in Ex.
    assert (E1 : (1 + Math_floor (r * (inject_Z c - 1)) + 1 == inject_Z (2 + f))%Q).
    { rewrite E0. replace (2 + f) with (1 + f + 1) by lia.
      rewrite (inject_Z_plus (1 + f) 1). reflexivity. }
    pose proof (wrapClamp_int _ _ c E1 ltac:(lia)) as W.
    rewrite Z.mod_small in W by lia.
    replace (1 + (2 + f - 1)) with (2 + f) in W by lia.
    split; [exists (2 + f); split; [exact W|lia]|].
    intros Heq.
    assert (Heq' : (inject_Z (2 + f) == _costumeNumber s)%Q)
      by (rewrite <- W; exact Heq).
    rewrite <- Heq', E0 in Ex. rewrite <- Zle_Qle in Ex. lia.
  - assert (Hlt : (1 + Math_floor (r * (inject_Z c - 1)) < _costumeNumber s)%Q).
    { apply Qnot_le_lt. intros Hle. apply Qle_bool_iff in Hle. congruence. }
    pose proof (wrapClamp_int _ _ c E0 ltac:(lia)) as W.
    rewrite Z.mod_small in W by lia.
    replace (1 + (1 + f - 1)) with (1 + f) in W by lia.
    split; [exists (1 + f); split; [exact W|lia]|].
    intros Heq.
    assert (Heq' : (inject_Z (1 + f) == _costumeNumber s)%Q)
      by (rewrite <- W; exact Heq).
    rewrite <- Heq', E0 in Hlt. by apply Qlt_irrefl in Hlt.
Qed.

End Costume.

(** *** [random] *)

Lemma js_rem_1_zero (q : Q) :
  Qeq_bool (js_rem q 1) 0 = true <-> (q == inject_Z (Qtrunc (q / 1)))%Q.
Proof.
  unfold js_rem. rewrite Qeq_bool_iff. split; intros H; lra.
Qed.

Lemma Math_min_max_spec (a b : Q) :
  ((Math_min a b == a /\ Math_max a b == b /\ a <= b) \/
   (Math_min a b == b /\ Math_max a b == a /\ b <= a))%Q.
Proof.
  unfold Math_min, Math_max. destruct (Qle_bool a b) eqn:E.
  - apply Qle_bool_iff in E. left. split; [reflexivity|split; [reflexivity|done]].
  - right. split; [reflexivity|split; [reflexivity|]].
    apply Qlt_le_weak, Qnot_le_lt. intros Hle. apply Qle_bool_iff in Hle. congruence.
Qed.

(** With [Math.random()] in [[0, 1)], [random(a, b)] lies between the
    smaller and the larger of [a] and [b], in either order of the
    arguments; when both are integers the result is an integer, so every
    integer of the closed range can come out and nothing else. *)
Theorem random_within_bounds (r a b : Q) :
  (0 <= r)%Q -> (r < 1)%Q ->
  (Math_min a b <= random r a b /\ random r a b <= Math_max a b)%Q /\
  (forall za zb : Z, (a == inject_Z za)%Q -> (b == inject_Z zb)%Q ->
     exists z : Z, (random r a b == inject_Z z)%Q /\
       Z.min za zb <= z <= Z.max za zb).
Proof.
  intros Hr0 Hr1.
  assert (Hord : (Math_min a b <= Math_max a b)%Q).
  { destruct (Math_min_max_spec a b) as [(-> & -> & H)|(-> & -> & H)]; done. }
  assert (Hint : forall lo hi : Z,
            (Math_min a b == inject_Z lo)%Q -> (Math_max a b == inject_Z hi)%Q ->
            exists z, (Math_floor (r * (Math_max a b - Math_min a b + 1)) + Math_min a b
                       == inject_Z z)%Q /\ lo <= z <= hi).
  { intros lo hi Elo Ehi.
    assert (Hle : lo <= hi) by (rewrite Zle_Qle, <- Elo, <- Ehi; done).
    set (n := (Math_max a b - Math_min a b + 1)%Q).
    assert (En : (n == inject_Z (hi - lo + 1))%Q).
    { subst n. rewrite Elo, Ehi. unfold Z.sub.
      rewrite !inject_Z_plus, inject_Z_opp. reflexivity. }
    assert (Hn1 : (1 <= n)%Q).
    { rewrite En. change 1%Q with (inject_Z 1). rewrite <- Zle_Qle. lia. }
    destruct (Math_floor_bounds (r * n)) as [Fl Fu]. unfold Math_floor in *.
    exists (Qfloor (r * n) + lo). split.
    { rewrite inject_Z_plus, Elo. reflexivity. }
    assert (H0 : Qfloor 0 <= Qfloor (r * n)).
    { apply Qfloor_resp_le. apply Qmult_le_0_compat; lra. }
    change (Qfloor 0) with 0 in H0.
    assert (H1 : (inject_Z (Qfloor (r * n)) < inject_Z (hi - lo + 1))%Q).
    { rewrite <- En. assert (r * n < 1 * n)%Q by (apply Qmult_lt_compat_r; lra). lra. }
    rewrite <- Zlt_Qlt in H1. lia. }
  split.
  - unfold random. cbv zeta.
    destruct (Qeq_bool (js_rem (Math_min a b) 1) 0) eqn:E1;
      [destruct (Qeq_bool (js_rem (Math_max a b) 1) 0) eqn:E2|]; cbn [andb].
    + apply js_rem_1_zero in E1, E2.
      destruct (Hint _ _ E1 E2) as (z & Ez & Hz).
      set (lo := Qtrunc (Math_min a b / 1)) in *.
      set (hi := Qtrunc (Math_max a b / 1)) in *.
      assert (L : (inject_Z lo <= inject_Z z)%Q) by (rewrite <- Zle_Qle; lia).
      assert (U : (inject_Z z <= inject_Z hi)%Q) by (rewrite <- Zle_Qle; lia).
      split; lra.
    + assert (0 <= r * (Math_max a b - Math_min a b))%Q
        by (apply Qmult_le_0_compat; lra).
      assert (r * (Math_max a b - Math_min a b) <= 1 * (Math_max a b - Math_min a b))%Q
        by (apply Qmult_le_compat_r; lra).
      split; lra.
    + assert (0 <= r * (Math_max a b - Math_min a b))%Q
        by (apply Qmult_le_0_compat; lra).
      assert (r * (Math_max a b - Math_min a b) <= 1 * (Math_max a b - Math_min a b))%Q
        by (apply Qmult_le_compat_r; lra).
      split; lra.
  - intros za zb Ea Eb.
    assert (Emin : (Math_min a b == inject_Z (Z.min za zb))%Q).
    { destruct (Math_min_max_spec a b) as [(-> & _ & H)|(-> & _ & H)];
        rewrite Ea, Eb, <- Zle_Qle in H.
      - rewrite Z.min_l by done. done.
      - rewrite Z.min_r by done. done. }
    assert (Emax : (Math_max a b == inject_Z (Z.max za zb))%Q).
    { destruct (Math_min_max_spec a b) as [(_ & -> & H)|(_ & -> & H)];
        rewrite Ea, Eb, <- Zle_Qle in H.
      - rewrite Z.max_r by done. done.
      - rewrite Z.max_l by done. done. }
    unfold random. cbv zeta.
    assert (T1 : Qeq_bool (js_rem (Math_min a b) 1) 0 = true).
    { apply js_rem_1_zero.
      rewrite (Qtrunc_comp _ (inject_Z (Z.min za zb))); [by rewrite Qtrunc_Z|].
      rewrite Emin. field. }
    assert (T2 : Qeq_bool (js_rem (Math_max a b) 1) 0 = true).
    { apply js_rem_1_zero.
      rewrite (Qtrunc_comp _ (inject_Z (Z.max za zb))); [by rewrite Qtrunc_Z|].
      rewrite Emax. field. }
    rewrite T1, T2. cbn [andb]. by apply Hint.
Qed.

(** *** [getSound] *)

Lemma js_rem_int (q : Q) (a b : Z) :
  (q == inject_Z a)%Q -> 0 < b ->
  (js_rem q (inject_Z b) == inject_Z (Z.rem a b))%Q.
Proof.
  intros E Hb. unfold js_rem.
  assert (Hq : Qtrunc (q / inject_Z b) = Z.quot a b).
  { rewrite (Qtrunc_comp _ (inject_Z a / inject_Z b)) by (by rewrite E).
    unfold Qtrunc. destruct (Qle_bool 0 (inject_Z a / inject_Z b)) eqn:Es.
    - apply Qle_bool_iff in Es.
      assert (Ha : 0 <= a).
      { destruct (Z_lt_le_dec a 0) as [Hneg|]; [|done]. exfalso.
        assert (H : (inject_Z a / inject_Z b < 0)%Q).
        { apply Qlt_shift_div_r.
          - change 0%Q with (inject_Z 0). by rewrite <- Zlt_Qlt.
          - rewrite Qmult_0_l. change 0%Q with (inject_Z 0). by rewrite <- Zlt_Qlt. }
        lra. }
      rewrite <- Zdiv_Qdiv. symmetry. apply Z.quot_div_nonneg; lia.
    - assert (Ha : a < 0).
      { destruct (Z_lt_le_dec a 0) as [|Hnn]; [done|]. exfalso.
        assert (H : (0 <= inject_Z a / inject_Z b)%Q).
        { apply Qle_shift_div_l.
          - change 0%Q with (inject_Z 0). by rewrite <- Zlt_Qlt.
          - rewrite Qmult_0_l. change 0%Q with (inject_Z 0). by rewrite <- Zle_Qle. }
        apply Qle_bool_iff in H. congruence. }
      unfold Qceiling.
      assert (E' : (- (inject_Z a / inject_Z b) == inject_Z (- a) / inject_Z b)%Q).
      { rewrite inject_Z_opp. field.
        intros H0. apply (proj1 (inject_Z_injective b 0)) in H0. lia. }
      rewrite (Qfloor_comp _ _ E'), <- Zdiv_Qdiv.
      rewrite <- (Z.quot_div_nonneg (- a) b) by lia.
      rewrite Z.quot_opp_l by lia. lia. }
  rewrite Hq, E, <- inject_Z_mult.
  rewrite (Z.quot_rem' a b) at 1.
  rewrite inject_Z_plus. ring.
Qed.

(** With [len > 0] sounds and an integer [k]: for [k >= 1], [getSound(k)]
    is the sound at index [(k - 1) mod len], so it is always a sound and
    [k + len] gives the same one; for [k <= 0] it is the first sound when
    [len] divides [k - 1] and [undefined] otherwise. *)
Theorem getSound_by_number (s : t Q) (n : Q) (k : Z) :
  let len := Z.of_nat (length (sounds s)) in
  0 < len -> (n == inject_Z k)%Q ->
  (1 <= k ->
     getSound s (VNum n) = sounds s !! Z.to_nat ((k - 1) mod len) /\
     is_Some (getSound s (VNum n)) /\
     getSound s (VNum (n + inject_Z len)) = getSound s (VNum n)) /\
  (k <= 0 ->
     getSound s (VNum n)
     = if (k - 1) mod len =? 0 then sounds s !! 0%nat else None).
Proof.
  intros len Hlen En.
  assert (Hshape : forall q z, (q == inject_Z z)%Q ->
            getSound s (VNum q)
            = if 0 <=? Z.rem (z - 1) len then sounds s !! Z.to_nat (Z.rem (z - 1) len)
              else None).
  { intros q z Eq. unfold getSound. fold len.
    destruct (sounds s) eqn:El; [simpl in len; lia|]. rewrite <- El.
    apply array_get_int. apply js_rem_int; [|done].
    rewrite Eq. unfold Z.sub. rewrite inject_Z_plus. reflexivity. }
  split.
  - intros Hk.
    assert (Hrem : Z.rem (k - 1) len = (k - 1) mod len)
      by (apply Z.rem_mod_nonneg; lia).
    pose proof (Z.mod_pos_bound (k - 1) len Hlen) as Hb.
    rewrite (Hshape n k En), Hrem, (proj2 (Z.leb_le _ _)) by lia.
    split; [done|]. split.
    + apply lookup_lt_is_Some. lia.
    + assert (En' : (n + inject_Z len == inject_Z (k + len))%Q)
        by (rewrite inject_Z_plus, En; reflexivity).
      rewrite (Hshape _ _ En').
      assert (Hrem' : Z.rem (k + len - 1) len = (k - 1) mod len).
      { rewrite Z.rem_mod_nonneg by lia.
        replace (k + len - 1) with (k - 1 + 1 * len) by lia. by rewrite Z.mod_add by lia. }
      by rewrite Hrem', (proj2 (Z.leb_le _ _)) by lia.
  - intros Hk. rewrite (Hshape n k En).
    pose proof (Z.rem_bound_pos_neg (k - 1) len ltac:(lia) ltac:(lia)) as Hb.
    destruct (Z.eqb_spec ((k - 1) mod len) 0) as [Hz|Hnz].
    + assert (Hr : Z.rem (k - 1) len = 0).
      { apply Z.rem_divide; [lia|]. apply Z.mod_divide; [lia|done]. }
      by rewrite Hr.
    + assert (Hr : Z.rem (k - 1) len <> 0).
      { intros Hr. apply Hnz. apply Z.mod_divide; [lia|].
        apply Z.rem_divide; [lia|done]. }
      by rewrite (proj2 (Z.leb_gt _ _)) by lia.
Qed.

(** *** Concrete instances *)



Lemma next_and_previous_costume_witness :
  ("next costume" ∉ costumes sample_sprite) /\
  ("previous costume" ∉ costumes sample_sprite) /\
  (_costumeNumber (with_costumeNumber sample_sprite 3) == inject_Z 3)%Q /\
  1 <= 3 <= Z.of_nat (length (costumes sample_sprite)) /\
  (_costumeNumber
     (set_costume (fun _ => None) 0 (with_costumeNumber sample_sprite 3)
        (VStr "next costume")) == inject_Z 1)%Q.
Proof.
  assert (H1 : "next costume" ∉ costumes sample_sprite)
    by (apply (bool_decide_unpack _); vm_compute; reflexivity).
  assert (H2 : "previous costume" ∉ costumes sample_sprite)
    by (apply (bool_decide_unpack _); vm_compute; reflexivity).
  assert (H3 : (_costumeNumber (with_costumeNumber sample_sprite 3) == inject_Z 3)%Q)
    by reflexivity.
  assert (H4 : 1 <= 3 <= Z.of_nat (length (costumes sample_sprite)))
    by (simpl; lia).
  split; [exact H1|]. split; [exact H2|]. split; [exact H3|]. split; [exact H4|].
  exact (proj1 (next_and_previous_costume (fun _ => None) 0 0
                  (with_costumeNumber sample_sprite 3%Q) 3 H1 H2 H3 H4)).
Defined.


Lemma random_costume_differs_witness :
  ("random costume" ∉ costumes sample_sprite) /\
  (0 <= 1 # 2)%Q /\ (1 # 2 < 1)%Q /\
  2 <= Z.of_nat (length (costumes sample_sprite)) /\
  ~ (_costumeNumber
       (set_costume (fun _ => None) (1 # 2) sample_sprite (VStr "random costume"))
     == _costumeNumber sample_sprite)%Q.
Proof.
  assert (H1 : "random costume" ∉ costumes sample_sprite)
    by (apply (bool_decide_unpack _); vm_compute; reflexivity).
  assert (H2 : (0 <= 1 # 2)%Q) by (intros H; discriminate H).
  assert (H3 : (1 # 2 < 1)%Q) by reflexivity.
  assert (H4 : 2 <= Z.of_nat (length (costumes sample_sprite))) by (simpl; lia).
  split; [exact H1|]. split; [exact H2|]. split; [exact H3|]. split; [exact H4|].
  exact (proj2 (random_costume_differs (fun _ => None) (1 # 2) sample_sprite
                  H1 H2 H3 H4)).
Defined.

Lemma random_within_bounds_witness :
  (0 <= 9 # 10)%Q /\ (9 # 10 < 1)%Q /\
  (Math_min 6 1 <= random (9 # 10) 6 1 /\ random (9 # 10) 6 1 <= Math_max 6 1)%Q.
Proof.
  assert (H1 : (0 <= 9 # 10)%Q) by (intros H; discriminate H).
  assert (H2 : (9 # 10 < 1)%Q) by reflexivity.
  split; [exact H1|]. split; [exact H2|].
  exact (proj1 (random_within_bounds (9 # 10) 6 1 H1 H2)).
Defined.

Lemma getSound_by_number_witness :
  0 < Z.of_nat (length (sounds noisy_sprite)) /\ (5 == inject_Z 5)%Q /\
  getSound noisy_sprite (VNum 5)
  = sounds noisy_sprite !! Z.to_nat ((5 - 1) mod Z.of_nat (length (sounds noisy_sprite))).
Proof.
  assert (H1 : 0 < Z.of_nat (length (sounds noisy_sprite))) by (simpl; lia).
  assert (H2 : (5 == inject_Z 5)%Q) by reflexivity.
  split; [exact H1|]. split; [exact H2|].
  exact (proj1 (proj1 (getSound_by_number noisy_sprite 5 5 H1 H2) ltac:(lia))).
Defined.

End SpriteBaseFacts.

(** ** Motion and angles *)

Module MotionFacts.
Import Sprite RealMotion Angles MoveFacts.
Open Scope R_scope.






End MotionFacts.

(** ** The fence and the edges *)

Module EdgesFacts.
Import JsNum JsNumFacts Sprite SpriteBase Edges.

Lemma Qltb_cases (a b : Q) :
  (Qltb a b = true /\ a < b)%Q \/ (Qltb a b = false /\ b <= a)%Q.
Proof.
  destruct (Qltb a b) eqn:E; [left|right]; split; try done.
  - by apply Qltb_true.
  - by apply Qltb_false.
Qed.



Lemma Math_max_0 (x : Q) :
  (0 <= Math_max 0 x)%Q /\ ((0 < Math_max 0 x)%Q <-> (0 < x)%Q).
Proof.
  unfold Math_max. destruct (Qle_bool 0 x) eqn:E.
  - apply Qle_bool_iff in E. split; [done|tauto].
  - assert (H : (x < 0)%Q).
    { apply Qnot_le_lt. intros Hle. apply Qle_bool_iff in Hle. congruence. }
    split; [lra|]. split; lra.
Qed.

(** The edge and the distance that the four comparisons of [nearestEdge]
    leave: the distance is the least of the four, and it is the distance
    of the edge. *)
Lemma nearest_of_four (dl dt dr db : Q) :
  exists e m,
    nearer db BOTTOM (nearer dr RIGHT (nearer dt TOP (nearer dl LEFT (None, None))))
    = (Some e, Some m) /\
    (m <= dl /\ m <= dt /\ m <= dr /\ m <= db)%Q /\
    (m == match e with LEFT => dl | TOP => dt | RIGHT => dr | BOTTOM => db end)%Q.
Proof.
  unfold nearer at 4. cbn [snd].
  unfold nearer at 3. cbn [snd].
  destruct (Qltb_cases dt dl) as [[-> H1]|[-> H1]];
    unfold nearer at 2; cbn [snd].
  - destruct (Qltb_cases dr dt) as [[-> H2]|[-> H2]];
      unfold nearer; cbn [snd].
    + destruct (Qltb_cases db dr) as [[-> H3]|[-> H3]];
        eexists _, _; (split; [reflexivity|]); split; try reflexivity; repeat split; lra.
    + destruct (Qltb_cases db dt) as [[-> H3]|[-> H3]];
        eexists _, _; (split; [reflexivity|]); split; try reflexivity; repeat split; lra.
  - destruct (Qltb_cases dr dl) as [[-> H2]|[-> H2]];
      unfold nearer; cbn [snd].
    + destruct (Qltb_cases db dr) as [[-> H3]|[-> H3]];
        eexists _, _; (split; [reflexivity|]); split; try reflexivity; repeat split; lra.
    + destruct (Qltb_cases db dl) as [[-> H3]|[-> H3]];
        eexists _, _; (split; [reflexivity|]); split; try reflexivity; repeat split; lra.
Qed.

Lemma nearestEdge_cases (bounds : Box) (stageWidth stageHeight : Q) :
  (nearestEdge bounds stageWidth stageHeight = None <->
   (- (stageWidth / 2) < left bounds /\ right bounds < stageWidth / 2 /\
    - (stageHeight / 2) < bottom bounds /\ top bounds < stageHeight / 2)%Q) /\
  (forall e, nearestEdge bounds stageWidth stageHeight = Some e ->
     match e with
     | LEFT => left bounds <= - (stageWidth / 2)
     | RIGHT => stageWidth / 2 <= right bounds
     | TOP => stageHeight / 2 <= top bounds
     | BOTTOM => bottom bounds <= - (stageHeight / 2)
     end%Q).
Proof.
  unfold nearestEdge. cbv zeta.
  set (dl := Math_max 0 (stageWidth / 2 + left bounds)).
  set (dt := Math_max 0 (stageHeight / 2 - top bounds)).
  set (dr := Math_max 0 (stageWidth / 2 - right bounds)).
  set (db := Math_max 0 (stageHeight / 2 + bottom bounds)).
  destruct (Math_max_0 (stageWidth / 2 + left bounds)) as [Pl Hl].
  destruct (Math_max_0 (stageHeight / 2 - top bounds)) as [Pt Ht].
  destruct (Math_max_0 (stageWidth / 2 - right bounds)) as [Pr Hr].
  destruct (Math_max_0 (stageHeight / 2 + bottom bounds)) as [Pb Hb].
  fold dl in Pl, Hl. fold dt in Pt, Ht. fold dr in Pr, Hr. fold db in Pb, Hb.
  destruct (nearest_of_four dl dt dr db) as (e & m & -> & (M1 & M2 & M3 & M4) & Em).
  cbn [fst snd].
  destruct (Qltb_cases 0 m) as [[-> Hm]|[-> Hm]].
  - split.
    + split; [intros _|done].
      assert (0 < dl /\ 0 < dt /\ 0 < dr /\ 0 < db)%Q as (A & B & C & D)
        by (repeat split; lra).
      apply Hl in A. apply Ht in B. apply Hr in C. apply Hb in D.
      repeat split; lra.
    + intros e' [=].
  - split.
    + split; [done|]. intros (A & B & C & D). exfalso.
      assert (0 < dl)%Q by (apply Hl; lra).
      assert (0 < dt)%Q by (apply Ht; lra).
      assert (0 < dr)%Q by (apply Hr; lra).
      assert (0 < db)%Q by (apply Hb; lra).
      destruct e; lra.
    + intros e' [= <-].
      destruct e.
      * destruct (Qlt_le_dec 0 (stageHeight / 2 + bottom bounds)) as [H|H]; [|lra].
        apply Hb in H. lra.
      * destruct (Qlt_le_dec 0 (stageWidth / 2 + left bounds)) as [H|H]; [|lra].
        apply Hl in H. lra.
      * destruct (Qlt_le_dec 0 (stageWidth / 2 - right bounds)) as [H|H]; [|lra].
        apply Hr in H. lra.
      * destruct (Qlt_le_dec 0 (stageHeight / 2 - top bounds)) as [H|H]; [|lra].
        apply Ht in H. lra.
Qed.

(** [nearestEdge] returns [null] exactly when the tight bounding box lies
    strictly inside the stage on all four sides; otherwise it returns an
    edge that the box reaches or crosses. *)
Theorem nearestEdge_null_iff_inside (bounds : Box) (stageWidth stageHeight : Q) :
  (nearestEdge bounds stageWidth stageHeight = None <->
   (- (stageWidth / 2) < left bounds /\ right bounds < stageWidth / 2 /\
    - (stageHeight / 2) < bottom bounds /\ top bounds < stageHeight / 2)%Q) /\
  (forall e, nearestEdge bounds stageWidth stageHeight = Some e ->
     match e with
     | LEFT => left bounds <= - (stageWidth / 2)
     | RIGHT => stageWidth / 2 <= right bounds
     | TOP => stageHeight / 2 <= top bounds
     | BOTTOM => bottom bounds <= - (stageHeight / 2)
     end%Q).
Proof. apply nearestEdge_cases. Qed.

(** A sprite that touches the edge has a nearest edge: whenever
    [touching("edge")] holds for a tight bounding box, [nearestEdge]
    returns an edge for it. *)
Theorem touching_edge_has_nearest_edge (bounds : Box) (stageWidth stageHeight : Q) :
  touching_edge bounds stageWidth stageHeight = true ->
  is_Some (nearestEdge bounds stageWidth stageHeight).
Proof.
  intros Ht.
  destruct (nearestEdge bounds stageWidth stageHeight) as [e|] eqn:E; [by eexists|].
  exfalso.
  apply (proj1 (nearestEdge_cases bounds stageWidth stageHeight)) in E
    as (A & B & C & D).
  unfold touching_edge in Ht.
  repeat (apply orb_true_iff in Ht as [Ht|Ht]); apply Qltb_true in Ht.
  - assert (E1 : (- stageWidth / 2 == - (stageWidth / 2))%Q) by field. lra.
  - lra.
  - lra.
  - assert (E1 : (- stageHeight / 2 == - (stageHeight / 2))%Q) by field. lra.
Qed.

(** *** Concrete instances *)


Lemma touching_edge_has_nearest_edge_witness :
  touching_edge (mkBox 230 260 10 (-10)) 480 360 = true /\
  is_Some (nearestEdge (mkBox 230 260 10 (-10)) 480 360).
Proof.
  assert (H : touching_edge (mkBox 230 260 10 (-10)) 480 360 = true) by reflexivity.
  split; [exact H|].
  exact (touching_edge_has_nearest_edge (mkBox 230 260 10 (-10)) 480 360 H).
Defined.

End EdgesFacts.

(** ** Clones: frame, round trip and [andClones] *)

Module FamilyFacts.
Import Obj Sprite World WorldFacts Family.

Lemma with_clones_same {num} (s : Sprite.t num) : with_clones s (clones s) = s.
Proof. by destruct s. Qed.

Lemma with_clones_twice {num} (s : Sprite.t num) (a b : list loc) :
  with_clones (with_clones s a) b = with_clones s b.
Proof. done. Qed.

Lemma clones_with_clones {num} (s : Sprite.t num) (a : list loc) :
  clones (with_clones s a) = a.
Proof. done. Qed.

Lemma filter_ne_twice {A} `{EqDecision A} (x : A) (l : list A) :
  filter (fun y => y ≠ x) (filter (fun y => y ≠ x) l) = filter (fun y => y ≠ x) l.
Proof.
  induction l as [|a l IH]; [done|].
  rewrite (filter_cons (fun y => y ≠ x) a l). case_decide; [|done].
  rewrite filter_cons, decide_True by done. by rewrite IH.
Qed.

Lemma filter_target_twice (x : loc) (l : list RunningTrigger) :
  filter (fun rt => target rt ≠ x) (filter (fun rt => target rt ≠ x) l)
  = filter (fun rt => target rt ≠ x) l.
Proof.
  induction l as [|a l IH]; [done|].
  rewrite (filter_cons (fun rt => target rt ≠ x) a l). case_decide; [|done].
  rewrite filter_cons, decide_True by done. by rewrite IH.
Qed.

Lemma filter_ne_fresh {A} `{EqDecision A} (x : A) (l : list A) :
  x ∉ l -> filter (fun y => y ≠ x) (l ++ [x]) = l.
Proof.
  intros Hx. rewrite filter_app.
  rewrite (filter_cons (fun y => y ≠ x) x []), decide_False by (intros H; by apply H).
  rewrite filter_nil, app_nil_r.
  induction l as [|a l IH]; [done|].
  apply not_elem_of_cons in Hx as [Hne Hx].
  rewrite filter_cons, decide_True by done. by rewrite IH.
Qed.

(** [deleteThisClone] is idempotent: deleting a clone a second time
    changes nothing. *)
Theorem deleteThisClone_twice (w w' : world) (this : loc) :
  deleteThisClone w this = Some w' -> deleteThisClone w' this = Some w'.
Proof.
  unfold deleteThisClone.
  destruct (sprites w !! this) as [s|] eqn:Hs; [|done]. cbn [mbind option_bind].
  destruct (parent s) as [p|] eqn:Hp.
  - destruct (sprites w !! p) as [ps|] eqn:Hps; [|done]. cbn [mbind option_bind].
    intros [= <-]. cbn [sprites runningTriggers effectMaps varObjects effectChains].
    assert (Hthis : exists s', <[p := with_clones ps
                       (filter (fun clone => clone ≠ this) (clones ps))]> (sprites w) !! this
                     = Some s' /\ parent s' = Some p).
    { destruct (decide (p = this)) as [->|Hne].
      - rewrite lookup_insert_eq. eexists. split; [done|].
        rewrite Hs in Hps. injection Hps as <-. done.
      - rewrite lookup_insert_ne by done. eauto. }
    destruct Hthis as (s' & Hl & Hp'). rewrite Hl. cbn [mbind option_bind].
    rewrite Hp', lookup_insert_eq. cbn [mbind option_bind].
    rewrite insert_insert_eq. cbn [with_clones clones].
    by rewrite filter_ne_twice, filter_target_twice.
  - intros [= <-]. rewrite Hs. cbn [mbind option_bind]. by rewrite Hp.
Qed.


Lemma triggers_copied (l : list Trigger) :
  map (fun tr => mkTrigger (trigger tr) (options tr) (_script tr)) l = l.
Proof. induction l as [|[k o f] l IH]; [done|]. simpl. by rewrite IH. Qed.

(** *** [andClones] *)

Lemma elem_of_concat {A} (x : A) (ls : list (list A)) :
  x ∈ concat ls <-> exists l, x ∈ l /\ l ∈ ls.
Proof.
  induction ls as [|l0 ls IH]; cbn [concat].
  - split; [by intros ?%elem_of_nil|]. by intros (l & _ & ?%elem_of_nil).
  - rewrite elem_of_app, IH. split.
    + intros [H|(l & H1 & H2)]; [exists l0; split; [done|by left]|].
      exists l. split; [done|by right].
    + intros (l & H1 & [->|H2]%elem_of_cons); [by left|right; eauto].
Qed.

Lemma length_concat_member {A} (r : list A) (rs : list (list A)) :
  r ∈ rs -> (length r <= length (concat rs))%nat.
Proof.
  induction rs as [|r0 rs IHrs]; [by intros ?%elem_of_nil|].
  cbn [concat]. rewrite length_app.
  intros [->|Hr]%elem_of_cons; [lia|]. specialize (IHrs Hr). lia.
Qed.

Lemma andClones_S (f : nat) (w : world) (l : loc) (ls : list loc) :
  andClones (S f) w l = Some ls <->
  exists s rs, sprites w !! l = Some s /\
    Forall2 (fun c r => andClones f w c = Some r) (clones s) rs /\
    ls = l :: concat rs.
Proof.
  cbn [andClones]. split.
  - destruct (sprites w !! l) as [s|]; [|done]. cbn [mbind option_bind].
    destruct (mapM (andClones f w) (clones s)) as [rs|] eqn:E; [|done].
    cbn [mbind option_bind]. intros [= <-].
    exists s, rs. split; [done|]. split; [by apply mapM_Some_1|done].
  - intros (s & rs & -> & H & ->). cbn [mbind option_bind].
    by rewrite (mapM_Some_2 _ _ _ H).
Qed.

Lemma andClones_more_fuel (w : world) (f : nat) : forall l ls,
  andClones f w l = Some ls -> andClones (S f) w l = Some ls.
Proof.
  induction f as [|f IH]; intros l ls; [done|].
  intros (s & rs & Hs & Hrs & ->)%andClones_S.
  apply andClones_S. exists s, rs. split; [done|]. split; [|done].
  eapply Forall2_impl; [exact Hrs|]. intros c r. apply IH.
Qed.

Lemma andClones_allocated (w : world) (f : nat) : forall l ls x,
  andClones f w l = Some ls -> x ∈ ls -> is_Some (sprites w !! x).
Proof.
  induction f as [|f IH]; intros l ls x; [done|].
  intros (s & rs & Hs & Hrs & ->)%andClones_S Hx.
  apply elem_of_cons in Hx as [->|Hx]; [by eexists|].
  apply elem_of_concat in Hx as (r & Hxr & Hr).
  destruct (proj1 (list_elem_of_lookup rs r) Hr) as [i Hi].
  destruct (Forall2_lookup_r _ _ _ _ _ Hrs Hi) as (c & _ & Hc).
  by apply (IH c r x).
Qed.

(** The result for a member of a family is no longer than the result for
    the family. *)
Lemma andClones_member (w : world) (f : nat) : forall l ls x,
  andClones f w l = Some ls -> x ∈ ls ->
  exists lx, andClones f w x = Some lx /\ (length lx <= length ls)%nat.
Proof.
  induction f as [|f IH]; intros l ls x; [done|].
  intros Hl Hx. pose proof Hl as (s & rs & Hs & Hrs & ->)%andClones_S.
  apply elem_of_cons in Hx as [->|Hx]; [by exists (l :: concat rs)|].
  apply elem_of_concat in Hx as (r & Hxr & Hr).
  destruct (proj1 (list_elem_of_lookup rs r) Hr) as [i Hi].
  destruct (Forall2_lookup_r _ _ _ _ _ Hrs Hi) as (c & _ & Hc).
  destruct (IH c r x Hc Hxr) as (lx & Hlx & Hlen).
  exists lx. split; [by apply andClones_more_fuel|].
  cbn [length].
  pose proof (length_concat_member _ _ Hr). lia.
Qed.

(** A sprite is not among its own descendants. *)
Lemma andClones_head_once (w : world) (f : nat) (l : loc) (ls : list loc) :
  andClones f w l = Some ls -> exists rest, ls = l :: rest /\ l ∉ rest.
Proof.
  destruct f as [|f]; [done|].
  intros Hl. pose proof Hl as (s & rs & Hs & Hrs & ->)%andClones_S.
  exists (concat rs). split; [done|]. intros Hin.
  apply elem_of_concat in Hin as (r & Hlr & Hr).
  destruct (proj1 (list_elem_of_lookup rs r) Hr) as [i Hi].
  destruct (Forall2_lookup_r _ _ _ _ _ Hrs Hi) as (c & _ & Hc).
  destruct (andClones_member w f c r l Hc Hlr) as (lx & Hlx & Hlen).
  apply andClones_more_fuel in Hlx. rewrite Hl in Hlx. injection Hlx as <-.
  cbn [length] in Hlen.
  pose proof (length_concat_member _ _ Hr). lia.
Qed.

(** A family without [this] is the same in every store that agrees with
    [w] on the sprites other than [this]. *)
Lemma andClones_frame (w w' : world) (this : loc) (f : nat) :
  (forall l, l <> this -> is_Some (sprites w !! l) ->
     sprites w' !! l = sprites w !! l) ->
  forall l ls, andClones f w l = Some ls -> this ∉ ls ->
    andClones f w' l = Some ls.
Proof.
  intros Hagree. induction f as [|f IH]; intros l ls; [done|].
  intros (s & rs & Hs & Hrs & ->)%andClones_S Hnot.
  apply not_elem_of_cons in Hnot as [Hne Hnot].
  apply andClones_S. exists s, rs.
  split; [rewrite Hagree; [done|done|by eexists]|]. split; [|done].
  clear Hs. induction Hrs as [|c r cs rs' Hc _ IHrs]; [constructor|].
  cbn [concat] in Hnot. apply not_elem_of_app in Hnot as [Hr Hrest].
  constructor; [by apply IH|by apply IHrs].
Qed.

Lemma andClones_children_frame (w w' : world) (this : loc) (f : nat) cs rss :
  (forall l, l <> this -> is_Some (sprites w !! l) ->
     sprites w' !! l = sprites w !! l) ->
  Forall2 (fun c r => andClones f w c = Some r) cs rss ->
  this ∉ concat rss ->
  Forall2 (fun c r => andClones (S f) w' c = Some r) cs rss.
Proof.
  intros Hagree. induction 1 as [|c r cs rss Hc _ IH]; [constructor|].
  cbn [concat]. intros [Hr Hrest]%not_elem_of_app.
  constructor; [|by apply IH].
  apply andClones_more_fuel. by eapply andClones_frame.
Qed.

Section Clones.
Variable effectNames : list string.
Hypothesis names_distinct : NoDup effectNames.
Hypothesis names_fit : (length effectNames <= 32)%nat.

(** [createClone] gives the clone the position, direction, rotation style,
    size, visibility, costume, layer, triggers and pen state of the
    origin, an empty speech bubble and no clones.  In the store, the origin
    changes in its clones list only, every other sprite stays as it was,
    and so does every effect map, variable object and effect chain that
    existed. *)
Theorem createClone_copies_and_preserves (fuel : nat) (w : world) (this : loc)
  s em vars n root rs rc :
  sprites w !! this = Some s ->
  effectMaps w !! effects s = Some em ->
  EffectMap.reachable effectNames em ->
  varObjects w !! _vars s = Some vars ->
  ancestry w this n root ->
  sprites w !! root = Some rs ->
  effectChains w !! effectChain rs = Some rc ->
  (n < fuel)%nat ->
  exists w' clone cs,
    createClone effectNames fuel w this = Some (w', clone) /\
    sprites w' !! clone = Some cs /\
    (_x cs = _x s /\ _y cs = _y s /\ _direction cs = _direction s /\
     rotationStyle cs = rotationStyle s /\ size cs = size s /\
     visible cs = visible s /\ _costumeNumber cs = _costumeNumber s /\
     costumes cs = costumes s /\ sounds cs = sounds s /\
     _layerOrder cs = _layerOrder s /\ triggers cs = triggers s /\
     _penDown cs = _penDown s /\ penSize cs = penSize s /\
     _penColor cs = _penColor s) /\
    _speechBubble cs = mkBubble String.EmptyString "say" None /\
    clones cs = [] /\
    sprites w' !! this = Some (with_clones s (clones s ++ [clone])) /\
    (forall l, l <> this -> l <> clone -> sprites w' !! l = sprites w !! l) /\
    (forall l, is_Some (effectMaps w !! l) -> effectMaps w' !! l = effectMaps w !! l) /\
    (forall l, is_Some (varObjects w !! l) -> varObjects w' !! l = varObjects w !! l) /\
    (forall l, is_Some (effectChains w !! l) ->
       effectChains w' !! l = effectChains w !! l).
Proof.
  intros Hs Hem Hreach Hvars Hanc Hroot Hrc Hfuel.
  destruct (createClone_result effectNames names_distinct names_fit
              fuel w this s em vars n root rs rc
              Hs Hem Hreach Hvars Hanc Hroot Hrc Hfuel)
    as (em' & _ & _ & _ & Hres).
  cbv zeta in Hres. destruct Hres as [running' Hres].
  pose proof (fresh_ne _ _ _ Hs) as Hne.
  eexists _, _, _. split; [exact Hres|].
  cbn [sprites effectMaps varObjects effectChains].
  split; [by rewrite lookup_insert_ne, lookup_insert_eq|].
  cbn [_x _y _direction rotationStyle size visible _costumeNumber costumes sounds
       _layerOrder triggers _penDown penSize _penColor _speechBubble clones].
  split; [by rewrite triggers_copied|].
  split; [done|]. split; [done|].
  split; [by rewrite lookup_insert_eq|].
  split; [intros l H1 H2; by rewrite !lookup_insert_ne|].
  split; [|split]; intros l [v Hl];
    rewrite lookup_insert_ne; try done; intros <-;
    by rewrite fresh_lookup_None in Hl.
Qed.

(** [createClone] followed by [deleteThisClone] on the new clone gives the
    origin back as it was before, clones list included, and leaves every
    other sprite that existed as it was; no running trigger targets the
    deleted clone. *)
Theorem createClone_then_delete (fuel : nat) (w : world) (this : loc)
  s em vars n root rs rc :
  sprites w !! this = Some s ->
  effectMaps w !! effects s = Some em ->
  EffectMap.reachable effectNames em ->
  varObjects w !! _vars s = Some vars ->
  ancestry w this n root ->
  sprites w !! root = Some rs ->
  effectChains w !! effectChain rs = Some rc ->
  (n < fuel)%nat ->
  Forall (fun c => is_Some (sprites w !! c)) (clones s) ->
  exists w' clone w'',
    createClone effectNames fuel w this = Some (w', clone) /\
    deleteThisClone w' clone = Some w'' /\
    sprites w'' !! this = Some s /\
    (forall l, l <> clone -> sprites w'' !! l = sprites w !! l) /\
    Forall (fun rt => target rt ≠ clone) (runningTriggers w'').
Proof.
  intros Hs Hem Hreach Hvars Hanc Hroot Hrc Hfuel Hclones.
  destruct (createClone_result effectNames names_distinct names_fit
              fuel w this s em vars n root rs rc
              Hs Hem Hreach Hvars Hanc Hroot Hrc Hfuel)
    as (em' & _ & _ & _ & Hres).
  cbv zeta in Hres. destruct Hres as [running' Hres].
  pose proof (fresh_ne _ _ _ Hs) as Hne.
  set (clone := fresh (dom (sprites w))) in *.
  assert (Hnotin : clone ∉ clones s).
  { intros Hin. rewrite Forall_forall in Hclones.
    destruct (Hclones _ Hin) as [v Hv]. subst clone.
    by rewrite fresh_lookup_None in Hv. }
  eexists _, clone, _. split; [exact Hres|].
  unfold deleteThisClone. cbn [sprites].
  rewrite lookup_insert_ne, lookup_insert_eq by done.
  cbn [mbind option_bind parent].
  rewrite lookup_insert_eq. cbn [mbind option_bind].
  split; [reflexivity|].
  cbn [sprites runningTriggers].
  rewrite insert_insert_eq, clones_with_clones, with_clones_twice.
  rewrite (filter_ne_fresh clone (clones s) Hnotin), with_clones_same.
  split; [by rewrite lookup_insert_eq|]. split.
  - intros l Hl. destruct (decide (l = this)) as [->|Hlt].
    + by rewrite lookup_insert_eq.
    + by rewrite !lookup_insert_ne.
  - apply Forall_forall. intros rt Hin.
    by apply list_elem_of_filter in Hin as [H _].
Qed.

(** After [createClone] on [this], [andClones] of [this] is what it was
    before, followed by the new clone. *)
Theorem andClones_after_createClone (fuel depth : nat) (w : world) (this : loc)
  s em vars n root rs rc family :
  sprites w !! this = Some s ->
  effectMaps w !! effects s = Some em ->
  EffectMap.reachable effectNames em ->
  varObjects w !! _vars s = Some vars ->
  ancestry w this n root ->
  sprites w !! root = Some rs ->
  effectChains w !! effectChain rs = Some rc ->
  (n < fuel)%nat ->
  andClones depth w this = Some family ->
  exists w' clone,
    createClone effectNames fuel w this = Some (w', clone) /\
    (clone ∉ family) /\
    andClones (S depth) w' this = Some (family ++ [clone]).
Proof.
  intros Hs Hem Hreach Hvars Hanc Hroot Hrc Hfuel Hfam.
  destruct (createClone_result effectNames names_distinct names_fit
              fuel w this s em vars n root rs rc
              Hs Hem Hreach Hvars Hanc Hroot Hrc Hfuel)
    as (em' & _ & _ & _ & Hres).
  cbv zeta in Hres. destruct Hres as [running' Hres].
  pose proof (fresh_ne _ _ _ Hs) as Hne.
  set (clone := fresh (dom (sprites w))) in *.
  eexists _, clone. split; [exact Hres|].
  set (w' := mkWorld _ _ _ _ _) in *.
  assert (Hfresh : clone ∉ family).
  { intros Hin. destruct (andClones_allocated _ _ _ _ _ Hfam Hin) as [v Hv].
    subst clone. by rewrite fresh_lookup_None in Hv. }
  split; [done|].
  assert (Hagree : forall l, l <> this -> is_Some (sprites w !! l) ->
            sprites w' !! l = sprites w !! l).
  { intros l Hl [v Hv]. subst w'. cbn [sprites].
    rewrite !lookup_insert_ne; [done| |done].
    intros <-. subst clone. by rewrite fresh_lookup_None in Hv. }
  destruct (andClones_head_once _ _ _ _ Hfam) as (rest & -> & Hhead).
  destruct depth as [|depth]; [done|].
  apply andClones_S in Hfam as (s0 & rss & Hs0 & Hrss & Heq).
  rewrite Hs in Hs0. injection Hs0 as <-. injection Heq as ->.
  apply andClones_S.
  exists (with_clones s (clones s ++ [clone])), (rss ++ [[clone]]).
  split; [subst w'; cbn [sprites]; by rewrite lookup_insert_eq|]. split.
  - rewrite clones_with_clones. apply Forall2_app.
    + by eapply andClones_children_frame.
    + constructor; [|constructor].
      apply andClones_S. eexists _, []. split.
      * subst w'. cbn [sprites]. by rewrite lookup_insert_ne, lookup_insert_eq.
      * split; [constructor|done].
  - rewrite concat_app. cbn [concat]. by rewrite app_nil_r.
Qed.

End Clones.

(** *** Concrete instances *)

Lemma deleteThisClone_twice_witness :
  exists w',
    deleteThisClone sample_world 2%positive = Some w' /\
    deleteThisClone w' 2%positive = Some w'.
Proof.
  destruct (deleteThisClone sample_world 2%positive) as [w'|] eqn:E;
    [|discriminate E].
  exists w'. split; [reflexivity|].
  exact (deleteThisClone_twice sample_world w' 2%positive E).
Defined.

Lemma createClone_copies_and_preserves_witness :
  NoDup EffectMap.scratch_effects /\
  (length EffectMap.scratch_effects <= 32)%nat /\
  sprites sample_world !! 2%positive = Some child_sprite /\
  effectMaps sample_world !! effects child_sprite = Some child_effects /\
  EffectMap.reachable EffectMap.scratch_effects child_effects /\
  varObjects sample_world !! _vars child_sprite = Some [("score", VNum 4)] /\
  ancestry sample_world 2%positive 1 1%positive /\
  sprites sample_world !! 1%positive = Some root_sprite /\
  effectChains sample_world !! effectChain root_sprite
    = Some (mkChain [("volume", VNum 100)] 1%positive) /\
  (1 < 3)%nat /\
  exists w' clone cs,
    createClone EffectMap.scratch_effects 3 sample_world 2%positive
      = Some (w', clone) /\
    sprites w' !! clone = Some cs /\ _x cs = _x child_sprite.
Proof.
  assert (H1 : sprites sample_world !! 2%positive = Some child_sprite) by reflexivity.
  assert (H2 : effectMaps sample_world !! effects child_sprite = Some child_effects)
    by reflexivity.
  assert (H3 : varObjects sample_world !! _vars child_sprite = Some [("score", VNum 4)])
    by reflexivity.
  assert (H4 : sprites sample_world !! 1%positive = Some root_sprite) by reflexivity.
  assert (H5 : effectChains sample_world !! effectChain root_sprite
               = Some (mkChain [("volume", VNum 100)] 1%positive)) by reflexivity.
  assert (H6 : (1 < 3)%nat) by lia.
  repeat (split; [first [exact EffectMapFacts.scratch_effects_distinct
                        |exact EffectMapFacts.scratch_effects_fit
                        |exact child_effects_reachable
                        |exact child_ancestry
                        |assumption]|]).
  destruct (createClone_copies_and_preserves EffectMap.scratch_effects
              EffectMapFacts.scratch_effects_distinct EffectMapFacts.scratch_effects_fit
              3 sample_world 2%positive _ _ _ _ _ _ _
              H1 H2 child_effects_reachable H3 child_ancestry H4 H5 H6)
    as (w' & clone & cs & Hres & Hcs & (Hx & _) & _).
  exists w', clone, cs. split; [exact Hres|]. split; [exact Hcs|exact Hx].
Defined.

Lemma createClone_then_delete_witness :
  NoDup EffectMap.scratch_effects /\
  (length EffectMap.scratch_effects <= 32)%nat /\
  sprites sample_world !! 2%positive = Some child_sprite /\
  effectMaps sample_world !! effects child_sprite = Some child_effects /\
  EffectMap.reachable EffectMap.scratch_effects child_effects /\
  varObjects sample_world !! _vars child_sprite = Some [("score", VNum 4)] /\
  ancestry sample_world 2%positive 1 1%positive /\
  sprites sample_world !! 1%positive = Some root_sprite /\
  effectChains sample_world !! effectChain root_sprite
    = Some (mkChain [("volume", VNum 100)] 1%positive) /\
  (1 < 3)%nat /\
  Forall (fun c => is_Some (sprites sample_world !! c)) (clones child_sprite) /\
  exists w' clone w'',
    createClone EffectMap.scratch_effects 3 sample_world 2%positive
      = Some (w', clone) /\
    deleteThisClone w' clone = Some w'' /\
    sprites w'' !! 2%positive = Some child_sprite.
Proof.
  assert (H1 : sprites sample_world !! 2%positive = Some child_sprite) by reflexivity.
  assert (H2 : effectMaps sample_world !! effects child_sprite = Some child_effects)
    by reflexivity.
  assert (H3 : varObjects sample_world !! _vars child_sprite = Some [("score", VNum 4)])
    by reflexivity.
  assert (H4 : sprites sample_world !! 1%positive = Some root_sprite) by reflexivity.
  assert (H5 : effectChains sample_world !! effectChain root_sprite
               = Some (mkChain [("volume", VNum 100)] 1%positive)) by reflexivity.
  assert (H6 : (1 < 3)%nat) by lia.
  assert (H7 : Forall (fun c => is_Some (sprites sample_world !! c))
                 (clones child_sprite)) by constructor.
  repeat (split; [first [exact EffectMapFacts.scratch_effects_distinct
                        |exact EffectMapFacts.scratch_effects_fit
                        |exact child_effects_reachable
                        |exact child_ancestry
                        |assumption]|]).
  destruct (createClone_then_delete EffectMap.scratch_effects
              EffectMapFacts.scratch_effects_distinct EffectMapFacts.scratch_effects_fit
              3 sample_world 2%positive _ _ _ _ _ _ _
              H1 H2 child_effects_reachable H3 child_ancestry H4 H5 H6 H7)
    as (w' & clone & w'' & Hres & Hdel & Hs & _).
  exists w', clone, w''. split; [exact Hres|]. split; [exact Hdel|exact Hs].
Defined.

Lemma andClones_after_createClone_witness :
  NoDup EffectMap.scratch_effects /\
  (length EffectMap.scratch_effects <= 32)%nat /\
  sprites sample_world !! 1%positive = Some root_sprite /\
  effectMaps sample_world !! effects root_sprite = Some EffectMap.fresh_map /\
  EffectMap.reachable EffectMap.scratch_effects EffectMap.fresh_map /\
  varObjects sample_world !! _vars root_sprite = Some [("score", VNum 3)] /\
  ancestry sample_world 1%positive 0 1%positive /\
  effectChains sample_world !! effectChain root_sprite
    = Some (mkChain [("volume", VNum 100)] 1%positive) /\
  (0 < 1)%nat /\
  andClones 2 sample_world 1%positive = Some [1%positive; 2%positive] /\
  exists w' clone,
    createClone EffectMap.scratch_effects 1 sample_world 1%positive
      = Some (w', clone) /\
    andClones 3 w' 1%positive = Some ([1%positive; 2%positive] ++ [clone]).
Proof.
  assert (H1 : sprites sample_world !! 1%positive = Some root_sprite) by reflexivity.
  assert (H2 : effectMaps sample_world !! effects root_sprite
               = Some EffectMap.fresh_map) by reflexivity.
  assert (Hr : EffectMap.reachable EffectMap.scratch_effects EffectMap.fresh_map)
    by (apply EffectMap.reach_new; reflexivity).
  assert (H3 : varObjects sample_world !! _vars root_sprite = Some [("score", VNum 3)])
    by reflexivity.
  assert (Ha : ancestry sample_world 1%positive 0 1%positive)
    by (apply (ancestry_root _ _ root_sprite); reflexivity).
  assert (H5 : effectChains sample_world !! effectChain root_sprite
               = Some (mkChain [("volume", VNum 100)] 1%positive)) by reflexivity.
  assert (H6 : (0 < 1)%nat) by lia.
  assert (H7 : andClones 2 sample_world 1%positive = Some [1%positive; 2%positive])
    by reflexivity.
  repeat (split; [first [exact EffectMapFacts.scratch_effects_distinct
                        |exact EffectMapFacts.scratch_effects_fit
                        |assumption]|]).
  destruct (andClones_after_createClone EffectMap.scratch_effects
              EffectMapFacts.scratch_effects_distinct EffectMapFacts.scratch_effects_fit
              1 2 sample_world 1%positive _ _ _ _ _ _ _ _
              H1 H2 Hr H3 Ha H1 H5 H6 H7)
    as (w' & clone & Hres & _ & Hfam).
  exists w', clone. split; [exact Hres|exact Hfam].
Defined.

End FamilyFacts.
